(** * Unscramble: a shallow embedding of [CIS17C_Project1/main.cpp]

    The game is a single-threaded console program.  Its state lives in
    local variables of [main] that are handed to the other functions by
    reference, and in one global array of achievements.  Every function
    below takes the values it reads and returns the values it leaves
    behind.

    Conventions of the embedding
    - [int] is a 32-bit signed integer, modelled as [Z] with the
      two's-complement result of each arithmetic operation written out
      ([Int.wrap]).  The statements about arithmetic are made for
      operands whose exact result is representable, the only operands
      for which C++ defines the result.
    - [size_t] values (lengths, indices, counts) are modelled as [nat].
    - [std::string] is [string]; [array<string, maxWords>] is a
      [list string] of length [maxWords], read with [!!] and written
      with [<[i:=x]>].
    - [rand()] is a sequence [rand : nat -> nat] of non-negative values
      together with the number of draws made so far.
    - [cin] is modelled by the values it delivers; text written to
      [cout] is not modelled. *)

From Stdlib Require Import ZArith Ascii String Lia.
From stdpp Require Import base list strings.

Open Scope Z_scope.

(** ** Machine integers *)

Module Int.

Definition INT_MIN : Z := - 2 ^ 31.
Definition INT_MAX : Z := 2 ^ 31 - 1.

(** The value an [int] holds after a result [z] has been reduced to 32
    bits. *)
Definition wrap (z : Z) : Z := (z - INT_MIN) mod 2 ^ 32 + INT_MIN.

Definition in_range (z : Z) : Prop := INT_MIN <= z <= INT_MAX.

Definition add (a b : Z) : Z := wrap (a + b).
Definition sub (a b : Z) : Z := wrap (a - b).
Definition mul (a b : Z) : Z := wrap (a * b).

(** [static_cast<int>(n)] for a [size_t] value [n]. *)
Definition of_size (n : nat) : Z := wrap (Z.of_nat n).

(** The conversion of an [int] operand to [size_t] in a mixed
    comparison such as [word.length() >= easyMinLength]. *)
Definition to_size (z : Z) : Z := z mod 2 ^ 64.

End Int.

(** ** Constants for game settings *)

Definition maxWords : nat := 200.
Definition easyMinLength : Z := 3.
Definition easyMaxLength : Z := 5.
Definition mediumMinLength : Z := 6.
Definition mediumMaxLength : Z := 8.
Definition hardMinLength : Z := 9.
Definition hintCost : Z := 1.
Definition maxHintsPerWord : Z := 2.
Definition numAchievements : nat := 4.

(** ** Achievements *)

Record Achievement := mkAchievement {
  name : string;
  description : string;
  achieved : bool
}.

(** The two-argument constructor of the struct: a fresh achievement is
    locked. *)
Definition newAchievement (n d : string) : Achievement :=
  mkAchievement n d false.

(** The global array [achievements]. *)
Definition achievements0 : list Achievement :=
  [ newAchievement "First Win" "Win your first game";
    newAchievement "Hint Master" "Win without using a hint";
    newAchievement "High Scorer" "Reach a score of 50 or more";
    newAchievement "Quick Thinker" "Win within 30 seconds" ].

(** [achievements[i].achieved] *)
Definition achieved_at (i : nat) (achs : list Achievement) : bool :=
  match achs !! i with
  | Some a => achieved a
  | None => false
  end.

(** [achievements[i].achieved = true] *)
Definition unlock (i : nat) (achs : list Achievement) : list Achievement :=
  alter (fun a => mkAchievement (name a) (description a) true) i achs.

Definition updateAchievements (wonGame : bool) (score hintsUsed timeTaken : Z)
    (achs : list Achievement) : list Achievement :=
  let achs :=
    if wonGame && negb (achieved_at 0 achs) then unlock 0 achs else achs in
  let achs :=
    if wonGame && (hintsUsed =? 0) && negb (achieved_at 1 achs)
    then unlock 1 achs else achs in
  let achs :=
    if (50 <=? score) && negb (achieved_at 2 achs) then unlock 2 achs else achs in
  let achs :=
    if wonGame && (timeTaken <=? 30) && negb (achieved_at 3 achs)
    then unlock 3 achs else achs in
  achs.

(** The overload [void playGame()], which [main] calls at the top of
    every pass through its loop.  All four arguments of
    [updateAchievements] are locals of this function. *)
Definition playGame_placeholder (achs : list Achievement) : list Achievement :=
  let score := 0 in
  let hintsUsed := 0 in
  let timeTaken := 25 in
  let wonGame := true in
  let score := Int.add score 10 in
  let hintsUsed := 0 in
  updateAchievements wonGame score hintsUsed timeTaken achs.

(** ** Difficulty of a word *)

Definition isEasyWord (word : string) : bool :=
  (Z.of_nat (String.length word) >=? Int.to_size easyMinLength)
  && (Z.of_nat (String.length word) <=? Int.to_size easyMaxLength).

Definition isMediumWord (word : string) : bool :=
  (Z.of_nat (String.length word) >=? Int.to_size mediumMinLength)
  && (Z.of_nat (String.length word) <=? Int.to_size mediumMaxLength).

Definition isHardWord (word : string) : bool :=
  Z.of_nat (String.length word) >=? Int.to_size hardMinLength.

(** The condition of the [if] in [filterWordsByDifficulty]. *)
Definition matchesDifficulty (difficulty : Z) (word : string) : bool :=
  ((difficulty =? 1) && isEasyWord word)
  || ((difficulty =? 2) && isMediumWord word)
  || ((difficulty =? 3) && isHardWord word).

(** [words[i]] for an index inside the array. *)
Definition word_at (words : list string) (i : nat) : string :=
  default ""%string (words !! i).

(** The [for] loop of [filterWordsByDifficulty]: [n] passes are left,
    the next one reads [words[i]]. *)
Fixpoint filterLoop (n i : nat) (difficulty : Z) (words : list string)
    (filteredWords : list string) (filteredCount : nat)
    : list string * nat :=
  match n with
  | O => (filteredWords, filteredCount)
  | S n' =>
      if matchesDifficulty difficulty (word_at words i)
      then filterLoop n' (S i) difficulty words
             (<[filteredCount := word_at words i]> filteredWords)
             (S filteredCount)
      else filterLoop n' (S i) difficulty words filteredWords filteredCount
  end.

(** Returns the output array and [filteredCount]. *)
Definition filterWordsByDifficulty (filteredWords words : list string)
    (wordCount : nat) (difficulty : Z) : list string * nat :=
  filterLoop wordCount 0 difficulty words filteredWords 0.

(** The difficulty bands as the specification names them, and its
    classification of a word by length: Easy is 3 to 5, Medium 6 to 8,
    Hard 9 and above, no band below 3. *)
Inductive DifficultyBand := Easy | Medium | Hard.

#[global] Instance DifficultyBand_eq_dec : EqDecision DifficultyBand.
Proof. solve_decision. Defined.

Definition classify (word : string) : option DifficultyBand :=
  let len := String.length word in
  if decide (3 <= len <= 5)%nat then Some Easy
  else if decide (6 <= len <= 8)%nat then Some Medium
  else if decide (9 <= len)%nat then Some Hard
  else None.

(** The menu number of a band ([displayDifficultyMenu]). *)
Definition band_choice (b : DifficultyBand) : Z :=
  match b with Easy => 1 | Medium => 2 | Hard => 3 end.

(** ** Loading words *)

(** What one call of [loadWords] leaves behind: the array, the returned
    count, the tokens of the file it has not extracted, the indices
    [i] at which it evaluated [words[i]], in order, and whether it
    extracted a token into a target outside the array.  Such a write
    is undefined behaviour: when [ld_overflow] is [true] the other
    fields say what the call did up to that write, and nothing about
    the state of the program after it. *)
Record Loaded := mkLoaded {
  ld_words : list string;
  ld_count : nat;
  ld_unread : list string;
  ld_indexed : list nat;
  ld_overflow : bool
}.

(** The [while] loop of [loadWords].  [tokens] are the
    whitespace-separated words the stream still holds.  The condition
    evaluates [file >> words[count]] first and [count < maxWords]
    second.  An extraction from a stream with no token left fails and
    leaves its target as it was.  An extraction that succeeds while
    [count] is [maxWords] has its target one past the last entry of the
    array: the list, which holds the entries of the array only, stays
    as it is, the index is kept in the trace, and the loop ends with
    the last component [true], the mark of a write outside the array
    (undefined behaviour in the source). *)
Fixpoint loadLoop (tokens : list string) (words : list string) (count : nat)
    (indexed : list nat)
    : list string * nat * list string * list nat * bool :=
  match tokens with
  | [] => (words, count, [], indexed ++ [count], false)
  | t :: rest =>
      let words := <[count := t]> words in
      let indexed := indexed ++ [count] in
      if (count <? maxWords)%nat
      then loadLoop rest words (S count) indexed
      else (words, count, rest, indexed, true)
  end.

(** The tokens an [ifstream] delivers.  [file] is [None] when the file
    cannot be opened: the stream is then in a failed state and every
    extraction from it fails, as at the end of a file. *)
Definition ifstream (file : option (list string)) : list string :=
  match file with
  | Some tokens => tokens
  | None => []
  end.

Definition loadWords (file : option (list string)) (words : list string)
    (startIndex : nat) : Loaded :=
  let count := startIndex in
  let '(words, count, unread, indexed, overflow) :=
    loadLoop (ifstream file) words count [] in
  mkLoaded words (count - startIndex)%nat unread indexed overflow.

(** ** Scrambling *)

(** [swap(anagram[j], anagram[k])] *)
Definition swap (j k : nat) (anagram : list ascii) : list ascii :=
  match anagram !! j, anagram !! k with
  | Some a, Some b => <[k := a]> (<[j := b]> anagram)
  | _, _ => anagram
  end.

(** The [for] loop of [scrambleWord]: [n] passes are left, the next one
    is for position [j]; [len] is [word.length()]. *)
Fixpoint scrambleLoop (rand : nat -> nat) (n j len draws : nat)
    (anagram : list ascii) : list ascii :=
  match n with
  | O => anagram
  | S n' =>
      let k := (rand draws mod len)%nat in
      scrambleLoop rand n' (S j) len (S draws) (swap j k anagram)
  end.

(** Returns the anagram and the number of draws made so far. *)
Definition scrambleWord (rand : nat -> nat) (draws : nat) (word : string)
    : string * nat :=
  let len := String.length word in
  (string_of_list_ascii
     (scrambleLoop rand len 0 len draws (list_ascii_of_string word)),
   (draws + len)%nat).

(** ** Scoring *)

Definition handleGameOver (score : Z) (correctWord : string) : Z := 0.

(** Returns [score] and [highestScore]. *)
Definition updateScore (isCorrect : bool) (score highestScore points : Z)
    : Z * Z :=
  if isCorrect then
    let score := Int.add score points in
    (score, if highestScore <? score then score else highestScore)
  else
    (Int.sub score 1, highestScore).

(** ** Hints *)

(** What a hint shows to the player. *)
Inductive Hint :=
| FirstLetter (c : ascii)
| WordLength (n : nat)
| RandomLetter (position : nat) (c : ascii).

(** [word[i]]; reading position [word.length()] of a [std::string]
    yields the null character. *)
Definition char_at (word : string) (i : nat) : ascii :=
  default zero (String.get i word).

(** Returns the hint shown (if any), [hintsUsed], [score] and the
    number of draws.  [hintChoice] is the number [cin] delivers when
    the menu is shown. *)
Definition useHint (rand : nat -> nat) (word : string) (hintChoice : Z)
    (hintsUsed score : Z) (draws : nat) : option Hint * Z * Z * nat :=
  if hintsUsed >=? maxHintsPerWord then (None, hintsUsed, score, draws)
  else
    let shown :=
      if hintChoice =? 1 then Some (FirstLetter (char_at word 0), draws)
      else if hintChoice =? 2 then Some (WordLength (String.length word), draws)
      else if hintChoice =? 3 then
        let randIndex := (rand draws mod String.length word)%nat in
        Some (RandomLetter (randIndex + 1) (char_at word randIndex), S draws)
      else None in
    match shown with
    | None => (None, hintsUsed, score, draws)
    | Some (h, draws) =>
        (Some h, Int.add hintsUsed 1, Int.sub score hintCost, draws)
    end.

(** ** One round *)

(** What the player types in one pass of the guessing loop: the word
    read into [guess] and, if the hint menu is then shown, the number
    read into [hintChoice]. *)
Record Turn := mkTurn {
  guess : string;
  hintChoice : Z
}.

(** The variables the guessing loop of [playGame] works on: the four
    counters it received by reference, its locals, and the number of
    draws from [rand()]. *)
Record Round := mkRound {
  score : Z;
  highestScore : Z;
  streak : Z;
  maxStreak : Z;
  attemptsLeft : Z;
  hintsUsed : Z;
  wordGuessed : bool;
  draws : nat
}.

(** The body of the [while] loop of [playGame]. *)
Definition guessStep (rand : nat -> nat) (word : string) (t : Turn)
    (r : Round) : Round :=
  if decide (guess t = "hint"%string) then
    let '(_, hintsUsed', score', draws') :=
      useHint rand word (hintChoice t) (hintsUsed r) (score r) (draws r) in
    mkRound score' (highestScore r) (streak r) (maxStreak r)
            (attemptsLeft r) hintsUsed' (wordGuessed r) draws'
  else if decide (guess t = word) then
    let points := Int.of_size (String.length word) in
    let comboBonus := Int.mul (streak r) 2 in
    let points := Int.add points comboBonus in
    let streak' := Int.add (streak r) 1 in
    let maxStreak' := if maxStreak r <? streak' then streak' else maxStreak r in
    let '(score', highestScore') :=
      updateScore true (score r) (highestScore r) points in
    mkRound score' highestScore' streak' maxStreak'
            (attemptsLeft r) (hintsUsed r) true (draws r)
  else
    mkRound (score r) (highestScore r) 0 (maxStreak r)
            (Int.sub (attemptsLeft r) 1) (hintsUsed r) (wordGuessed r) (draws r).


(** The [while] loop of [playGame].  [None]: the player has typed
    nothing more and the program waits at [cin]. *)
Fixpoint guessLoop (rand : nat -> nat) (word : string) (turns : list Turn)
    (r : Round) : option Round :=
  if (0 <? attemptsLeft r) && negb (wordGuessed r) then
    match turns with
    | [] => None
    | t :: turns' => guessLoop rand word turns' (guessStep rand word t r)
    end
  else Some r.

(** The statement after the loop: a round that was not won ends in
    [handleGameOver]. *)
Definition roundEnd (word : string) (r : Round) : Round :=
  if negb (wordGuessed r) then
    mkRound (handleGameOver (score r) word) (highestScore r) (streak r)
            (maxStreak r) (attemptsLeft r) (hintsUsed r) (wordGuessed r)
            (draws r)
  else r.

(** The guessing loop and the statement after it, from the values the
    variables have when the loop is entered. *)
Definition playRound (rand : nat -> nat) (word : string) (turns : list Turn)
    (r0 : Round) : option Round :=
  match guessLoop rand word turns r0 with
  | Some r => Some (roundEnd word r)
  | None => None
  end.

(** ** The session *)

(** The variables of [main] and the global achievements. *)
Record Session := mkSession {
  s_score : Z;
  s_highestScore : Z;
  s_streak : Z;
  s_maxStreak : Z;
  s_words : list string;
  s_wordCount : nat;
  s_achievements : list Achievement;
  s_draws : nat
}.

(** [playGame(score, highestScore, streak, maxStreak, words, wordCount,
    difficulty)]. *)
Definition playGame (rand : nat -> nat) (difficulty : Z) (turns : list Turn)
    (s : Session) : option Session :=
  if (s_wordCount s =? 0)%nat then Some s
  else
    let '(filteredWords, filteredCount) :=
      filterWordsByDifficulty (replicate maxWords ""%string) (s_words s)
                              (s_wordCount s) difficulty in
    if (filteredCount =? 0)%nat then Some s
    else
      let word :=
        word_at filteredWords (rand (s_draws s) mod filteredCount)%nat in
      let '(scrambledWord, draws1) := scrambleWord rand (S (s_draws s)) word in
      let r0 := mkRound (s_score s) (s_highestScore s) (s_streak s)
                        (s_maxStreak s) 3 0 false draws1 in
      match playRound rand word turns r0 with
      | None => None
      | Some r =>
          Some (mkSession (score r) (highestScore r) (streak r) (maxStreak r)
                          (s_words s) (s_wordCount s) (s_achievements s)
                          (draws r))
      end.

(** The files the program can name: the tokens of a file, or [None] if
    it cannot be opened. *)
Definition Files := string -> option (list string).

Definition displayShop (files : Files) (shopOption : Z) (s : Session)
    : Session :=
  if shopOption =? 1 then
    let ld := loadWords (files "dictionary2.txt"%string) (s_words s)
                        (s_wordCount s) in
    let newWords := ld_count ld in
    mkSession (s_score s) (s_highestScore s) (s_streak s) (s_maxStreak s)
              (ld_words ld) (s_wordCount s + newWords)%nat
              (s_achievements s) (s_draws s)
  else s.

(** What the player enters during one pass of the loop of [main]: the
    menu option and, where the chosen branch asks for them, the
    difficulty with the turns of the round, or the shop option. *)
Record MenuInput := mkMenuInput {
  m_option : Z;
  m_difficulty : Z;
  m_turns : list Turn;
  m_shopOption : Z
}.

(** The state of [main] when its loop is first entered. *)
Definition startSession (files : Files) : Session :=
  let ld := loadWords (files "dictionary.txt"%string)
                      (replicate maxWords ""%string) 0 in
  mkSession 0 0 0 0 (ld_words ld) (ld_count ld) achievements0 0.

(** One pass of the loop of [main], up to and including the [switch].
    Returns the state and [exitGame]. *)
Definition mainStep (rand : nat -> nat) (files : Files) (inp : MenuInput)
    (s : Session) : option (Session * bool) :=
  let s :=
    mkSession (s_score s) (s_highestScore s) (s_streak s) (s_maxStreak s)
              (s_words s) (s_wordCount s)
              (playGame_placeholder (s_achievements s)) (s_draws s) in
  if m_option inp =? 1 then
    match playGame rand (m_difficulty inp) (m_turns inp) s with
    | Some s' => Some (s', false)
    | None => None
    end
  else if m_option inp =? 2 then
    Some (displayShop files (m_shopOption inp) s, false)
  else if m_option inp =? 3 then Some (s, true)
  else Some (s, false).

(** The loop of [main].  [None]: the program waits for input that never
    comes. *)
Fixpoint mainLoop (rand : nat -> nat) (files : Files)
    (inputs : list MenuInput) (s : Session) : option Session :=
  match inputs with
  | [] => None
  | inp :: inputs' =>
      match mainStep rand files inp s with
      | None => None
      | Some (s', true) => Some s'
      | Some (s', false) => mainLoop rand files inputs' s'
      end
  end.

Definition main (rand : nat -> nat) (files : Files)
    (inputs : list MenuInput) : option Session :=
  mainLoop rand files inputs (startSession files).

(** ** Sample data *)

(** A store holding six words, and an empty array of the same size. *)
Definition sampleWords : list string :=
  ["cat"; "planet"; "house"; "at"; "dog"; "wonderful"]%string
    ++ replicate 194 ""%string.

Definition emptyWords : list string := replicate maxWords ""%string.

(** A dictionary holding the one word [house]; no second dictionary. *)
Definition houseFiles : Files :=
  fun filename =>
    if decide (filename = "dictionary.txt"%string) then Some ["house"%string]
    else None.

(** Menu option 1 at difficulty 1, the word guessed at the first try. *)
Definition winHouse : MenuInput :=
  mkMenuInput 1 1 [mkTurn "house" 0] 0.

(** Menu option 3. *)
Definition exitNow : MenuInput := mkMenuInput 3 0 [] 0.

(** ** Notions used in the statements about rounds, hints and achievements *)

(** The number of turns that are guesses, not requests for a hint. *)
Definition countGuesses (turns : list Turn) : nat :=
  length (filter (fun t => guess t <> "hint"%string) turns).

(** What a hint says is true of the word: the first letter is the
    letter at index 0, the length is the length, and the letter shown
    for the 1-based [position] is the letter at that position. *)
Definition hintHolds (word : string) (h : Hint) : Prop :=
  match h with
  | FirstLetter c => String.get 0 word = Some c
  | WordLength n => n = String.length word
  | RandomLetter position c =>
      (1 <= position <= String.length word)%nat
      /\ String.get (position - 1) word = Some c
  end.

(** The arguments of one call of [updateAchievements]. *)
Record Evaluation := mkEvaluation {
  e_wonGame : bool;
  e_score : Z;
  e_hintsUsed : Z;
  e_timeTaken : Z
}.

Definition evaluate (achs : list Achievement) (e : Evaluation)
    : list Achievement :=
  updateAchievements (e_wonGame e) (e_score e) (e_hintsUsed e)
                     (e_timeTaken e) achs.

(** Calls of [updateAchievements] one after the other, on the global
    array. *)
Definition evaluateAll (evs : list Evaluation) (achs : list Achievement)
    : list Achievement :=
  foldl evaluate achs evs.

(** A second dictionary of three words, and a store of 198 words. *)
Definition shopFiles : Files :=
  fun filename =>
    if decide (filename = "dictionary2.txt"%string)
    then Some ["elephant"; "giraffe"; "hippopotamus"]%string
    else None.

Definition nearlyFull : list string :=
  replicate 198 "word"%string ++ replicate 2 ""%string.

(** * Properties *)

(** ** Difficulty bands and the filter *)

Lemma to_size_small z : 0 <= z < 2 ^ 64 -> Int.to_size z = z.
Proof. intros H. unfold Int.to_size. by apply Z.mod_small. Qed.

Lemma isEasyWord_iff w :
  isEasyWord w = true <-> (3 <= String.length w <= 5)%nat.
Proof.
  unfold isEasyWord, easyMinLength, easyMaxLength.
  rewrite !to_size_small by lia.
  rewrite andb_true_iff, Z.geb_le, Z.leb_le. lia.
Qed.

Lemma isMediumWord_iff w :
  isMediumWord w = true <-> (6 <= String.length w <= 8)%nat.
Proof.
  unfold isMediumWord, mediumMinLength, mediumMaxLength.
  rewrite !to_size_small by lia.
  rewrite andb_true_iff, Z.geb_le, Z.leb_le. lia.
Qed.

Lemma isHardWord_iff w : isHardWord w = true <-> (9 <= String.length w)%nat.
Proof.
  unfold isHardWord, hardMinLength.
  rewrite !to_size_small by lia.
  rewrite Z.geb_le. lia.
Qed.

(** The condition the filter tests for menu choice [band_choice b] is
    the specification's [classify w = Some b]. *)
Lemma matchesDifficulty_classify b w :
  matchesDifficulty (band_choice b) w = true <-> classify w = Some b.
Proof.
  unfold matchesDifficulty, classify.
  rewrite !orb_true_iff, !andb_true_iff, isEasyWord_iff, isMediumWord_iff,
    isHardWord_iff, !Z.eqb_eq.
  destruct b; simpl; repeat case_decide; split; intros; try congruence; try lia;
    intuition (try congruence; try lia).
Qed.

Lemma classify_short w : (String.length w < 3)%nat -> classify w = None.
Proof. intros H. unfold classify. repeat case_decide; try lia; done. Qed.

(** A word shorter than 3 passes the filter for no difficulty. *)
Lemma matchesDifficulty_short d w :
  (String.length w < 3)%nat -> matchesDifficulty d w = false.
Proof.
  intros H. unfold matchesDifficulty.
  destruct (isEasyWord w) eqn:E; [apply isEasyWord_iff in E; lia|].
  destruct (isMediumWord w) eqn:M; [apply isMediumWord_iff in M; lia|].
  destruct (isHardWord w) eqn:Hd; [apply isHardWord_iff in Hd; lia|].
  by rewrite !andb_false_r.
Qed.

(** Loop invariant of [filterLoop]: the first [filteredCount] entries of
    the output are what was there before, followed by the matching
    words among the [n] it has read, in their order. *)
Lemma filterLoop_spec d words : forall n i fw fc,
  (i + n <= length words)%nat -> (fc + n <= length fw)%nat ->
  forall fw' fc', filterLoop n i d words fw fc = (fw', fc') ->
  take fc' fw' =
    take fc fw ++
    filter (fun w => matchesDifficulty d w = true) (take n (drop i words))
  /\ length fw' = length fw /\ (fc' <= fc + n)%nat.
Proof.
  induction n as [|n IH]; intros i fw fc Hi Hfc fw' fc' E; simpl in E.
  - inversion E; subst. rewrite take_0. simpl. rewrite app_nil_r.
    repeat split; lia.
  - destruct (lookup_lt_is_Some_2 words i) as [w Hw]; [lia|].
    assert (Hd : take (S n) (drop i words) = w :: take n (drop (S i) words)).
    { rewrite (drop_S _ _ _ Hw). done. }
    assert (Hwa : word_at words i = w) by (unfold word_at; by rewrite Hw).
    rewrite Hwa in E. rewrite Hd, filter_cons.
    destruct (matchesDifficulty d w) eqn:M.
    + apply IH in E; [|lia|rewrite length_insert; lia].
      destruct E as (E1 & E2 & E3). rewrite length_insert in E2.
      rewrite E1. rewrite decide_True by done.
      split; [|split; [done|lia]].
      rewrite (take_S_r (<[fc:=w]> fw) fc w).
      2:{ apply list_lookup_insert_eq. lia. }
      rewrite take_insert_ge by lia. by rewrite <- app_assoc.
    + apply IH in E; [|lia|lia].
      destruct E as (E1 & E2 & E3).
      rewrite decide_False by congruence.
      split; [done|split; [done|lia]].
Qed.

Lemma filter_matches_classify b (l : list string) :
  filter (fun w => matchesDifficulty (band_choice b) w = true) l =
  filter (fun w => classify w = Some b) l.
Proof.
  apply list_filter_iff. intros w. apply matchesDifficulty_classify.
Qed.

(** C9.  Classification depends on the length of the word alone: Easy
    is exactly the lengths 3 to 5, Medium 6 to 8, Hard 9 and above, and
    a word shorter than 3 is in no band.  Filtering the first
    [wordCount] stored words for a band leaves, in the first
    [filteredCount] places of the output array, exactly the words of
    that band in their original order (so none when no word matches). *)
Theorem filter_by_difficulty_spec (b : DifficultyBand)
    (words filteredWords : list string) (wordCount : nat) :
  (wordCount <= length words)%nat ->
  (wordCount <= length filteredWords)%nat ->
  (forall w,
     (isEasyWord w = true <-> (3 <= String.length w <= 5)%nat)
     /\ (isMediumWord w = true <-> (6 <= String.length w <= 8)%nat)
     /\ (isHardWord w = true <-> (9 <= String.length w)%nat)
     /\ ((String.length w < 3)%nat ->
         isEasyWord w = false /\ isMediumWord w = false
         /\ isHardWord w = false))
  /\ (forall w w', String.length w = String.length w' ->
        classify w = classify w'
        /\ forall d, matchesDifficulty d w = matchesDifficulty d w')
  /\ let '(out, filteredCount) :=
       filterWordsByDifficulty filteredWords words wordCount (band_choice b) in
     take filteredCount out =
       filter (fun w => classify w = Some b) (take wordCount words)
     /\ filteredCount =
          length (filter (fun w => classify w = Some b) (take wordCount words)).
Proof.
  intros Hw Hf. split; [|split].
  - intros w. split; [apply isEasyWord_iff|].
    split; [apply isMediumWord_iff|]. split; [apply isHardWord_iff|].
    intros Hs.
    destruct (isEasyWord w) eqn:E; [apply isEasyWord_iff in E; lia|].
    destruct (isMediumWord w) eqn:M; [apply isMediumWord_iff in M; lia|].
    destruct (isHardWord w) eqn:Hd; [apply isHardWord_iff in Hd; lia|].
    done.
  - intros w w' E. split.
    + unfold classify. by rewrite E.
    + intros d. unfold matchesDifficulty, isEasyWord, isMediumWord, isHardWord.
      by rewrite E.
  - destruct (filterWordsByDifficulty _ _ _ _) as [out fc] eqn:E.
    unfold filterWordsByDifficulty in E.
    apply filterLoop_spec in E; [|lia|lia].
    destruct E as (E1 & E2 & E3).
    rewrite take_0, drop_0 in E1. simpl in E1.
    rewrite filter_matches_classify in E1.
    split; [done|].
    rewrite <- E1. rewrite length_take. lia.
Qed.

Lemma filter_by_difficulty_witness :
  (6 <= length sampleWords)%nat
  /\ (6 <= length emptyWords)%nat
  /\ let '(out, filteredCount) :=
       filterWordsByDifficulty emptyWords sampleWords 6 (band_choice Easy) in
     take filteredCount out =
       filter (fun w => classify w = Some Easy) (take 6 sampleWords)
     /\ filteredCount =
          length (filter (fun w => classify w = Some Easy)
                         (take 6 sampleWords)).
Proof.
  assert (H1 : (6 <= length sampleWords)%nat) by (simpl; lia).
  assert (H2 : (6 <= length emptyWords)%nat) by (simpl; lia).
  split; [exact H1|]. split; [exact H2|].
  exact (proj2 (proj2 (filter_by_difficulty_spec Easy sampleWords
                         emptyWords 6 H1 H2))).
Defined.

Example filter_by_difficulty_example :
  filterWordsByDifficulty emptyWords sampleWords 6 1
  = (["cat"; "house"; "dog"]%string ++ replicate 197 ""%string, 3%nat).
Proof. vm_compute. reflexivity. Qed.

(** ** Scrambling *)

Lemma length_list_ascii_of_string s :
  length (list_ascii_of_string s) = String.length s.
Proof. induction s as [|c s IH]; simpl; congruence. Qed.

Lemma swap_length j k l : length (swap j k l) = length l.
Proof.
  unfold swap. destruct (l !! j), (l !! k); try done.
  by rewrite !length_insert.
Qed.

Lemma swap_Permutation j k l : swap j k l ≡ₚ l.
Proof.
  unfold swap. destruct (l !! j) as [a|] eqn:Ej; [|done].
  destruct (l !! k) as [b|] eqn:Ek; [|done].
  by apply Permutation_insert_swap.
Qed.

(** Swapping a position with itself changes nothing. *)
Lemma swap_same j l : swap j j l = l.
Proof.
  unfold swap. destruct (l !! j) as [a|] eqn:Ej; [|done].
  rewrite list_insert_insert_eq. by apply list_insert_id.
Qed.

Lemma scrambleLoop_Permutation rand len : forall n j draws anagram,
  scrambleLoop rand n j len draws anagram ≡ₚ anagram.
Proof.
  induction n as [|n IH]; intros j draws anagram; [done|].
  cbn [scrambleLoop]. rewrite IH. apply swap_Permutation.
Qed.

(** The loop is one swap per position, in increasing order of the
    position; the partner of position [j + i] is the [i]-th draw
    reduced modulo the length. *)
Lemma scrambleLoop_foldl rand len : forall n j draws anagram,
  scrambleLoop rand n j len draws anagram =
  foldl (fun a i => swap (j + i) (rand (draws + i)%nat mod len)%nat a)
        anagram (seq 0 n).
Proof.
  induction n as [|n IH]; intros j draws anagram; [done|].
  cbn [scrambleLoop]. rewrite IH. rewrite <- cons_seq. cbn [foldl].
  rewrite !Nat.add_0_r. rewrite <- fmap_S_seq.
  generalize (swap j (rand draws mod len)%nat anagram). generalize (seq 0 n).
  intros l. induction l as [|x l IHl]; intros a; [done|].
  cbn [fmap list_fmap foldl]. rewrite <- IHl.
  replace (S j + x)%nat with (j + S x)%nat by lia.
  replace (S draws + x)%nat with (draws + S x)%nat by lia. done.
Qed.

(** With draws that happen to name the position being visited, every
    swap is a self-swap. *)
Lemma scrambleLoop_identity d0 len : forall n j anagram,
  (j + n <= len)%nat ->
  scrambleLoop (fun i => (i - d0)%nat) n j len (d0 + j) anagram = anagram.
Proof.
  induction n as [|n IH]; intros j anagram Hj; [done|].
  cbn [scrambleLoop].
  replace (d0 + j - d0)%nat with j by lia.
  rewrite Nat.mod_small by lia. rewrite swap_same.
  replace (S (d0 + j)) with (d0 + S j)%nat by lia.
  apply IH. lia.
Qed.

(** [swap] on two positions of the list, read off position by position:
    each of the two holds what the other held, every other position
    holds what it held. *)
Lemma swap_inserts j k (l : list ascii) :
  (j < length l)%nat -> (k < length l)%nat ->
  swap j k l = <[k := default zero (l !! j)]> (<[j := default zero (l !! k)]> l).
Proof.
  intros Hj Hk. unfold swap.
  destruct (lookup_lt_is_Some_2 l j Hj) as [a Ha].
  destruct (lookup_lt_is_Some_2 l k Hk) as [b Hb].
  by rewrite Ha, Hb.
Qed.

Lemma swap_lookup j k (l : list ascii) :
  (j < length l)%nat -> (k < length l)%nat ->
  swap j k l !! k = l !! j
  /\ swap j k l !! j = l !! k
  /\ forall m, m <> j -> m <> k -> swap j k l !! m = l !! m.
Proof.
  intros Hj Hk. unfold swap.
  destruct (lookup_lt_is_Some_2 l j Hj) as [a Ha].
  destruct (lookup_lt_is_Some_2 l k Hk) as [b Hb].
  rewrite Ha, Hb. split; [|split].
  - rewrite list_lookup_insert_eq by (rewrite length_insert; lia). done.
  - destruct (decide (j = k)) as [->|Hne].
    + rewrite list_lookup_insert_eq by (rewrite length_insert; lia). congruence.
    + rewrite list_lookup_insert_ne by done.
      rewrite list_lookup_insert_eq by lia. done.
  - intros m H1 H2. by rewrite !list_lookup_insert_ne by done.
Qed.

Lemma foldl_swap_inserts (g : nat -> nat) (len : nat) :
  forall (positions : list nat) (a : list ascii),
  length a = len ->
  Forall (fun i => (i < len)%nat /\ (g i < len)%nat) positions ->
  foldl (fun a i => swap i (g i) a) a positions =
  foldl (fun a i => <[g i := default zero (a !! i)]>
                      (<[i := default zero (a !! g i)]> a)) a positions.
Proof.
  induction positions as [|i positions IH]; intros a Ha HF; [done|].
  apply Forall_cons in HF as [[Hi Hg] HF]. cbn [foldl].
  rewrite <- swap_inserts by lia.
  apply IH; [|done]. by rewrite swap_length.
Qed.

Lemma get_lookup : forall (s : string) (i : nat),
  String.get i s = list_ascii_of_string s !! i.
Proof.
  induction s as [|c s IH]; intros i; [by destruct i|].
  destruct i as [|i]; [done|]. cbn. apply IH.
Qed.

(** Draws that name the position being visited, except that the visit
    of position [p] draws [q]: the loop is the one swap of [p] and
    [q]. *)
Lemma scrambleLoop_one_swap d0 len p q : forall n j anagram,
  (j + n <= len)%nat -> (q < len)%nat ->
  scrambleLoop (fun i => if decide (i = d0 + p)%nat then q else (i - d0)%nat)
               n j len (d0 + j) anagram
  = if decide (j <= p < j + n)%nat then swap p q anagram else anagram.
Proof.
  induction n as [|n IH]; intros j anagram Hj Hq.
  { cbn [scrambleLoop]. rewrite decide_False by lia. done. }
  cbn [scrambleLoop].
  replace (S (d0 + j)) with (d0 + S j)%nat by lia.
  destruct (decide (d0 + j = d0 + p)%nat) as [E|E].
  - assert (j = p) by lia. subst j.
    rewrite Nat.mod_small by lia.
    rewrite IH by lia. rewrite decide_False by lia.
    rewrite decide_True by lia. done.
  - replace (d0 + j - d0)%nat with j by lia.
    rewrite Nat.mod_small by lia. rewrite swap_same.
    rewrite IH by lia.
    destruct (decide (S j <= p < S j + n)%nat);
      [rewrite decide_True by lia|rewrite decide_False by lia]; done.
Qed.

(** C8.  Whatever [rand()] returns, the anagram has the same characters
    with the same multiplicities as the word, and the same length.  It
    is obtained by visiting the positions 0, 1, ..., length-1 in order
    and, at position [i], exchanging the letters at [i] and at
    [k = rand() % length]: after the visit position [k] holds the
    letter that was at [i] and position [i] the letter that was at
    [k].  For a non-empty word every [k] is a position of the word.
    There are draws for which the anagram is the word itself; and for
    any two positions holding different letters there are draws for
    which the anagram is the word with just these two letters
    exchanged, so it differs from the word. *)
Theorem scrambleWord_permutation (rand : nat -> nat) (draws : nat)
    (word : string) :
  let anagram := (scrambleWord rand draws word).1 in
  let len := String.length word in
  list_ascii_of_string anagram ≡ₚ list_ascii_of_string word
  /\ String.length anagram = len
  /\ list_ascii_of_string anagram =
       foldl (fun a i =>
                let k := (rand (draws + i)%nat mod len)%nat in
                <[k := default zero (a !! i)]>
                  (<[i := default zero (a !! k)]> a))
             (list_ascii_of_string word) (seq 0 len)
  /\ (word <> ""%string ->
      Forall (fun i => (rand (draws + i)%nat mod len < len)%nat) (seq 0 len))
  /\ (exists rand', (scrambleWord rand' draws word).1 = word)
  /\ (forall p q, (p < len)%nat -> (q < len)%nat ->
        String.get p word <> String.get q word ->
        exists rand',
          let anagram' := (scrambleWord rand' draws word).1 in
          String.get p anagram' = String.get q word
          /\ String.get q anagram' = String.get p word
          /\ (forall m, m <> p -> m <> q ->
                String.get m anagram' = String.get m word)
          /\ anagram' <> word).
Proof.
  intros anagram len. subst anagram len. unfold scrambleWord. cbn [fst].
  rewrite list_ascii_of_string_of_list_ascii.
  split; [apply scrambleLoop_Permutation|].
  split.
  { rewrite <- !length_list_ascii_of_string,
      list_ascii_of_string_of_list_ascii.
    apply Permutation_length, scrambleLoop_Permutation. }
  split.
  { rewrite scrambleLoop_foldl. cbv zeta.
    apply (foldl_swap_inserts
             (fun i => (rand (draws + i)%nat mod String.length word)%nat)
             (String.length word)).
    - apply length_list_ascii_of_string.
    - apply Forall_seq. intros i Hi. split; [lia|].
      apply Nat.mod_upper_bound. lia. }
  split.
  { intros Hne. apply Forall_forall. intros i _.
    apply Nat.mod_upper_bound. destruct word; [done|simpl; lia]. }
  split.
  { exists (fun i => (i - draws)%nat).
    pose proof (scrambleLoop_identity draws (String.length word)
                  (String.length word) 0 (list_ascii_of_string word)) as Hid.
    rewrite Nat.add_0_r in Hid. rewrite Hid by lia.
    apply string_of_list_ascii_of_string. }
  intros p q Hp Hq Hne.
  exists (fun i => if decide (i = draws + p)%nat then q else (i - draws)%nat).
  cbv zeta.
  pose proof (scrambleLoop_one_swap draws (String.length word) p q
                (String.length word) 0 (list_ascii_of_string word)) as H1.
  rewrite Nat.add_0_r in H1. rewrite H1 by lia. clear H1.
  rewrite decide_True by lia.
  rewrite !get_lookup, list_ascii_of_string_of_list_ascii.
  set (l := list_ascii_of_string word).
  assert (Hl : length l = String.length word)
    by apply length_list_ascii_of_string.
  destruct (swap_lookup p q l) as (S1 & S2 & S3); [lia|lia|].
  rewrite !get_lookup in Hne. fold l in Hne.
  split; [done|]. split; [done|].
  split.
  { intros m Hm1 Hm2.
    rewrite !get_lookup, list_ascii_of_string_of_list_ascii.
    fold l. by apply S3. }
  intros X. apply Hne. rewrite <- S2 at 1.
  rewrite <- (list_ascii_of_string_of_list_ascii (swap p q l)), X. done.
Qed.

Lemma scrambleWord_permutation_witness :
  "cat"%string <> ""%string
  /\ list_ascii_of_string (scrambleWord (fun n => n * 7 + 1)%nat 0 "cat").1
     = ["c"; "t"; "a"]%char
  /\ Forall (fun i => ((fun n => n * 7 + 1)%nat (0 + i)%nat mod 3 < 3)%nat)
            (seq 0 3).
Proof.
  assert (H : "cat"%string <> ""%string) by discriminate.
  pose proof (scrambleWord_permutation (fun n => n * 7 + 1)%nat 0 "cat")
    as T.
  cbv zeta in T. destruct T as (_ & _ & T3 & T4 & _).
  split; [exact H|]. split; [|exact (T4 H)].
  rewrite T3. reflexivity.
Defined.

Example scrambleWord_example :
  scrambleWord (fun n => n * 7 + 1)%nat 0 "cat" = ("cta"%string, 3%nat).
Proof. vm_compute. reflexivity. Qed.

(** ** Loading words *)

(** The loop never counts past the capacity, and never changes the size
    of the array. *)
Lemma loadLoop_bound : forall tokens words count indexed words' count' u ix ov,
  loadLoop tokens words count indexed = (words', count', u, ix, ov) ->
  (count <= maxWords)%nat ->
  (count <= count' <= maxWords)%nat /\ length words' = length words.
Proof.
  induction tokens as [|t rest IH]; intros words count indexed words' count'
    u ix ov E Hc; cbn [loadLoop] in E.
  - inversion E; subst. split; [lia|done].
  - destruct (count <? maxWords)%nat eqn:Hlt.
    + apply Nat.ltb_lt in Hlt. apply IH in E; [|lia].
      rewrite length_insert in E. split; [lia|tauto].
    + inversion E; subst. rewrite length_insert. split; [lia|done].
Qed.

(** The number of stored words stays within the capacity over a load
    that starts within it. *)
Lemma loadWords_count_bound file words startIndex :
  (startIndex <= maxWords)%nat ->
  (startIndex + ld_count (loadWords file words startIndex) <= maxWords)%nat.
Proof.
  intros Hs. unfold loadWords.
  destruct (loadLoop (ifstream file) words startIndex [])
    as [[[[w c] u] ix] ov] eqn:E.
  apply loadLoop_bound in E; [|done]. cbn [ld_count]. lia.
Qed.

(** Every pass of the loop evaluates [words[count]] before it compares
    [count] with [maxWords]: the last index the loop evaluates is the
    final value of [count]. *)
Lemma loadLoop_last_index :
  forall tokens words count indexed words' count' u ix ov,
  loadLoop tokens words count indexed = (words', count', u, ix, ov) ->
  last ix = Some count'.
Proof.
  induction tokens as [|t rest IH]; intros words count indexed words' count'
    u ix ov E; cbn [loadLoop] in E.
  - inversion E; subst. apply last_snoc.
  - destruct (count <? maxWords)%nat.
    + by apply IH in E.
    + inversion E; subst. apply last_snoc.
Qed.

(** A load into a store that is already full evaluates [words[200]],
    whatever the file is. *)
Lemma loadWords_full_store file words :
  maxWords ∈ ld_indexed (loadWords file words maxWords).
Proof.
  unfold loadWords.
  destruct file as [[|t rest]|]; cbn; apply list_elem_of_here.
Qed.

(** The shop never takes the number of stored words past the capacity. *)
Lemma displayShop_wordCount files shopOption s :
  (s_wordCount s <= maxWords)%nat ->
  (s_wordCount (displayShop files shopOption s) <= maxWords)%nat.
Proof.
  intros H. unfold displayShop. destruct (shopOption =? 1); [|done].
  cbn [s_wordCount]. by apply loadWords_count_bound.
Qed.

Lemma startSession_wordCount files :
  (s_wordCount (startSession files) <= maxWords)%nat.
Proof.
  unfold startSession. cbn [s_wordCount].
  pose proof (loadWords_count_bound (files "dictionary.txt"%string)
                (replicate maxWords ""%string) 0) as H.
  unfold maxWords in *. lia.
Qed.

(** C3.  A file of 202 words loaded into an empty store: 200 words are
    counted, but the loop condition extracts first and compares second,
    so the 201st word is extracted as well (only the 202nd is left
    unread) and its target is [words[200]], one past the last entry of
    the array. *)
Theorem loadWords_reads_past_capacity :
  let file := Some (replicate 200 "w"%string ++ ["x"; "y"]%string) in
  let ld := loadWords file emptyWords 0 in
  ld_count ld = 200%nat
  /\ ld_unread ld = ["y"%string]
  /\ last (ld_indexed ld) = Some 200%nat
  /\ ~ Forall (fun i => (i < maxWords)%nat) (ld_indexed ld).
Proof.
  cbv zeta. split; [by vm_compute|]. split; [by vm_compute|].
  assert (L : last (ld_indexed (loadWords
               (Some (replicate 200 "w"%string ++ ["x"; "y"]%string))
               emptyWords 0)) = Some 200%nat) by (by vm_compute).
  split; [exact L|].
  intros HF. apply last_Some_elem_of in L.
  rewrite Forall_forall in HF. apply HF in L. unfold maxWords in L. lia.
Qed.

(** C10.  When the file cannot be opened, [loadWords] returns 0 and the
    array it was given comes back as it was, so the store holds the
    same words and the same number of them. *)
Theorem loadWords_unopened (words : list string) (startIndex : nat) :
  let ld := loadWords None words startIndex in
  ld_count ld = 0%nat
  /\ ld_words ld = words
  /\ (startIndex + ld_count ld)%nat = startIndex.
Proof.
  cbv zeta. unfold loadWords. cbn [ifstream loadLoop ld_count ld_words].
  rewrite Nat.sub_diag. split; [done|]. split; [done|lia].
Qed.

(** The same at the two places where the program loads a file. *)
Lemma displayShop_unopened (files : Files) (s : Session) :
  files "dictionary2.txt"%string = None ->
  displayShop files 1 s = s.
Proof.
  intros Hf. unfold displayShop. cbn [Z.eqb Pos.eqb]. rewrite Hf.
  unfold loadWords. cbn [ifstream loadLoop ld_count ld_words].
  rewrite Nat.sub_diag, Nat.add_0_r. by destruct s.
Qed.

Lemma startSession_unopened (files : Files) :
  files "dictionary.txt"%string = None ->
  s_wordCount (startSession files) = 0%nat
  /\ s_words (startSession files) = replicate maxWords ""%string.
Proof. intros Hf. unfold startSession. rewrite Hf. done. Qed.

(** ** Scoring *)

Lemma wrap_in_range z : Int.in_range z -> Int.wrap z = z.
Proof.
  unfold Int.in_range, Int.wrap, Int.INT_MIN, Int.INT_MAX. intros H.
  rewrite Z.mod_small by lia. lia.
Qed.

Lemma of_size_in_range n :
  Z.of_nat n <= Int.INT_MAX -> Int.of_size n = Z.of_nat n.
Proof.
  intros H. apply wrap_in_range. unfold Int.in_range, Int.INT_MIN. lia.
Qed.

Ltac in_range_tac :=
  unfold Int.in_range, Int.INT_MIN, Int.INT_MAX; cbn; lia.



(** C7.  A guess that is neither [hint] nor the word costs one attempt
    and resets the streak to 0, whatever it was; the score and the
    highest score stay as they are (no point is deducted), and so do
    [maxStreak], the hints used and the state of the round. *)
Theorem incorrect_guess_spec (rand : nat -> nat) (word : string) (t : Turn)
    (r : Round) :
  guess t <> "hint"%string ->
  guess t <> word ->
  Int.in_range (attemptsLeft r - 1) ->
  let r' := guessStep rand word t r in
  attemptsLeft r' = attemptsLeft r - 1
  /\ streak r' = 0
  /\ score r' = score r
  /\ highestScore r' = highestScore r
  /\ maxStreak r' = maxStreak r
  /\ hintsUsed r' = hintsUsed r
  /\ wordGuessed r' = wordGuessed r.
Proof.
  intros Hh Hw Ha r'. subst r'. unfold guessStep.
  rewrite decide_False by exact Hh. rewrite decide_False by exact Hw.
  cbn [attemptsLeft streak score highestScore maxStreak hintsUsed wordGuessed].
  unfold Int.sub. rewrite wrap_in_range by exact Ha. done.
Qed.

Lemma incorrect_guess_witness :
  attemptsLeft (guessStep (fun _ => 0%nat) "house" (mkTurn "horse" 0)
                          (mkRound 20 31 4 6 3 1 false 0)) = 3 - 1
  /\ streak (guessStep (fun _ => 0%nat) "house" (mkTurn "horse" 0)
                       (mkRound 20 31 4 6 3 1 false 0)) = 0
  /\ score (guessStep (fun _ => 0%nat) "house" (mkTurn "horse" 0)
                      (mkRound 20 31 4 6 3 1 false 0)) = 20.
Proof.
  assert (Hh : "horse"%string <> "hint"%string) by discriminate.
  assert (Hw : "horse"%string <> "house"%string) by discriminate.
  assert (Ha : Int.in_range (3 - 1)) by in_range_tac.
  destruct (incorrect_guess_spec (fun _ => 0%nat) "house" (mkTurn "horse" 0)
              (mkRound 20 31 4 6 3 1 false 0) Hh Hw Ha)
    as (E1 & E2 & E3 & _).
  split; [exact E1|]. split; [exact E2|exact E3].
Defined.

(** ** Hints *)

(** C6.  [useHint] with two hints already used shows nothing and leaves
    [hintsUsed] and the score as they are.  With fewer than two used, a
    choice other than 1, 2 or 3 shows nothing and changes nothing, and
    a choice of 1, 2 or 3 shows a hint, adds exactly 1 to [hintsUsed]
    and takes exactly 1 from the score, whatever the score is (it may
    become negative). *)
Theorem useHint_spec (rand : nat -> nat) (word : string) (hintChoice : Z)
    (hintsUsed score : Z) (draws : nat) :
  (2 <= hintsUsed ->
   useHint rand word hintChoice hintsUsed score draws
   = (None, hintsUsed, score, draws))
  /\ (hintsUsed < 2 -> ~ (1 <= hintChoice <= 3) ->
      useHint rand word hintChoice hintsUsed score draws
      = (None, hintsUsed, score, draws))
  /\ (hintsUsed < 2 -> 1 <= hintChoice <= 3 ->
      Int.in_range (hintsUsed + 1) -> Int.in_range (score - 1) ->
      exists h draws',
        useHint rand word hintChoice hintsUsed score draws
        = (Some h, hintsUsed + 1, score - 1, draws')).
Proof.
  unfold useHint, maxHintsPerWord, hintCost. split; [|split].
  - intros H. destruct (Z.geb_spec hintsUsed 2); [done|lia].
  - intros H Hc. destruct (Z.geb_spec hintsUsed 2); [lia|].
    destruct (Z.eqb_spec hintChoice 1); [lia|].
    destruct (Z.eqb_spec hintChoice 2); [lia|].
    destruct (Z.eqb_spec hintChoice 3); [lia|]. done.
  - intros H Hc Hh Hs. destruct (Z.geb_spec hintsUsed 2); [lia|].
    unfold Int.add, Int.sub. rewrite !wrap_in_range by assumption.
    destruct (Z.eqb_spec hintChoice 1); [by eauto|].
    destruct (Z.eqb_spec hintChoice 2); [by eauto|].
    destruct (Z.eqb_spec hintChoice 3); [by eauto|lia].
Qed.

Lemma useHint_witness :
  useHint (fun _ => 4%nat) "house" 1 2 5 0 = (None, 2, 5, 0%nat)
  /\ useHint (fun _ => 4%nat) "house" 7 1 5 0 = (None, 1, 5, 0%nat)
  /\ exists h draws',
       useHint (fun _ => 4%nat) "house" 3 1 0 0 = (Some h, 1 + 1, 0 - 1, draws').
Proof.
  split; [|split].
  - apply (proj1 (useHint_spec (fun _ => 4%nat) "house" 1 2 5 0)). lia.
  - apply (proj1 (proj2 (useHint_spec (fun _ => 4%nat) "house" 7 1 5 0)));
      lia.
  - apply (proj2 (proj2 (useHint_spec (fun _ => 4%nat) "house" 3 1 0 0)));
      [lia | lia | in_range_tac | in_range_tac].
Defined.

Example useHint_example :
  useHint (fun _ => 4%nat) "house" 3 1 0 0
  = (Some (RandomLetter 5 "e"%char), 2, -1, 1%nat).
Proof. vm_compute. reflexivity. Qed.

(** Asking for a hint never costs an attempt and never touches the
    streak, and the score it leaves is the score of [useHint]. *)
Lemma hint_turn_frame (rand : nat -> nat) (word : string) (t : Turn)
    (r : Round) :
  guess t = "hint"%string ->
  let r' := guessStep rand word t r in
  attemptsLeft r' = attemptsLeft r
  /\ streak r' = streak r
  /\ wordGuessed r' = wordGuessed r
  /\ (hintsUsed r', score r') =
     (let '(_, h, s, _) :=
        useHint rand word (hintChoice t) (hintsUsed r) (score r) (draws r)
      in (h, s)).
Proof.
  intros Hg r'. subst r'. unfold guessStep. rewrite decide_True by exact Hg.
  destruct (useHint _ _ _ _ _ _) as [[[o h] s] d]. done.
Qed.

(** ** Game over *)

(** A round that was lost has used up its attempts. *)
Lemma guessLoop_exit (rand : nat -> nat) (word : string) :
  forall turns r0 r,
  guessLoop rand word turns r0 = Some r ->
  wordGuessed r = false -> attemptsLeft r <= 0.
Proof.
  induction turns as [|t turns IH]; intros r0 r E Hw; cbn [guessLoop] in E.
  - destruct (0 <? attemptsLeft r0) eqn:Ha, (wordGuessed r0) eqn:Hg;
      cbn in E; inversion E; subst; try congruence.
    apply Z.ltb_ge in Ha. exact Ha.
  - destruct (0 <? attemptsLeft r0) eqn:Ha, (wordGuessed r0) eqn:Hg;
      cbn in E; try (inversion E; subst; try congruence;
                     apply Z.ltb_ge in Ha; exact Ha).
    by apply IH in E.
Qed.

(** C5.  [handleGameOver] leaves the score at 0 whatever it was,
    negative scores included; and every round that ends without the
    word having been guessed ends with its attempts used up and the
    score at exactly 0. *)
Theorem game_over_resets_score (rand : nat -> nat) (word : string)
    (turns : list Turn) (r0 r : Round) :
  playRound rand word turns r0 = Some r ->
  wordGuessed r = false ->
  (forall prior, handleGameOver prior word = 0)
  /\ attemptsLeft r <= 0
  /\ score r = 0.
Proof.
  intros E Hw. split; [done|].
  unfold playRound in E.
  destruct (guessLoop rand word turns r0) as [r1|] eqn:E1; [|done].
  inversion E as [E']. clear E. unfold roundEnd in *.
  destruct (wordGuessed r1) eqn:Hg; cbn [negb] in *.
  - congruence.
  - cbn [attemptsLeft score]. split; [|done].
    by apply (guessLoop_exit rand word turns r0 r1).
Qed.

(** Three wrong guesses, one hint in between, starting from a negative
    score. *)
Lemma game_over_witness :
  playRound (fun _ => 0%nat) "house"
    [mkTurn "horse" 0; mkTurn "hint" 2; mkTurn "mouse" 0; mkTurn "hose" 0]
    (mkRound (-2) 9 1 2 3 0 false 0)
  = Some (mkRound 0 9 0 2 0 1 false 0)
  /\ score (mkRound 0 9 0 2 0 1 false 0) = 0.
Proof.
  assert (E : playRound (fun _ => 0%nat) "house"
    [mkTurn "horse" 0; mkTurn "hint" 2; mkTurn "mouse" 0; mkTurn "hose" 0]
    (mkRound (-2) 9 1 2 3 0 false 0)
  = Some (mkRound 0 9 0 2 0 1 false 0)) by (vm_compute; reflexivity).
  split; [exact E|].
  exact (proj2 (proj2 (game_over_resets_score _ _ _ _ _ E eq_refl))).
Defined.

(** Three wrong guesses end a fresh round, and end it at score 0. *)
Lemma three_wrong_guesses (rand : nat -> nat) (word : string)
    (t1 t2 t3 : Turn) (r0 : Round) :
  Forall (fun t => guess t <> "hint"%string /\ guess t <> word) [t1; t2; t3] ->
  attemptsLeft r0 = 3 -> wordGuessed r0 = false ->
  exists r, playRound rand word [t1; t2; t3] r0 = Some r
            /\ wordGuessed r = false /\ score r = 0 /\ attemptsLeft r = 0.
Proof.
  intros HF Ha Hg.
  apply Forall_cons in HF as [[H1 H1'] HF].
  apply Forall_cons in HF as [[H2 H2'] HF].
  apply Forall_cons in HF as [[H3 H3'] _].
  unfold playRound. cbn [guessLoop]. unfold guessStep.
  rewrite !(decide_False (P := guess t1 = _)) by assumption.
  rewrite !(decide_False (P := guess t2 = _)) by assumption.
  rewrite !(decide_False (P := guess t3 = _)) by assumption.
  cbn [attemptsLeft wordGuessed]. rewrite Ha, Hg. cbn.
  eexists. split; [reflexivity|]. cbn. done.
Qed.

(** ** Achievements *)

Lemma achieved_at_unlock_same i achs :
  (i < length achs)%nat -> achieved_at i (unlock i achs) = true.
Proof.
  intros Hi. unfold achieved_at, unlock.
  destruct (lookup_lt_is_Some_2 achs i Hi) as [a Ha].
  rewrite list_lookup_alter, decide_True by done. by rewrite Ha.
Qed.

Lemma achieved_at_unlock_ne i j achs :
  i <> j -> achieved_at j (unlock i achs) = achieved_at j achs.
Proof.
  intros Hne. unfold achieved_at, unlock.
  by rewrite list_lookup_alter_ne.
Qed.

(** Unlocking one achievement locks no other. *)
Lemma achieved_at_unlock_mono i j achs :
  achieved_at j achs = true -> achieved_at j (unlock i achs) = true.
Proof.
  intros H. destruct (decide (i = j)) as [->|Hne].
  - apply achieved_at_unlock_same.
    unfold achieved_at in H. destruct (achs !! j) as [a|] eqn:E; [|done].
    by apply lookup_lt_Some in E.
  - by rewrite achieved_at_unlock_ne.
Qed.

Lemma unlock_length i achs : length (unlock i achs) = length achs.
Proof. unfold unlock. apply length_alter. Qed.

Lemma updateAchievements_length won sc h tt achs :
  length (updateAchievements won sc h tt achs) = length achs.
Proof.
  unfold updateAchievements.
  repeat match goal with
         | |- context [if ?c then _ else _] => destruct c
         end; by rewrite ?unlock_length.
Qed.

(** One-shot: an achievement that is unlocked stays unlocked through
    every later evaluation, whatever its arguments. *)
Lemma updateAchievements_mono won sc h tt achs j :
  achieved_at j achs = true ->
  achieved_at j (updateAchievements won sc h tt achs) = true.
Proof.
  intros H. unfold updateAchievements.
  repeat match goal with
         | |- context [if ?c then _ else _] => destruct c
         end; auto using achieved_at_unlock_mono.
Qed.

(** What one evaluation does to First Win: it is unlocked afterwards
    exactly if it was before or the round was reported as won. *)
Lemma updateAchievements_first_win won sc h tt achs :
  length achs = numAchievements ->
  achieved_at 0 (updateAchievements won sc h tt achs)
  = won || achieved_at 0 achs.
Proof.
  intros HL. unfold updateAchievements.
  destruct won, (achieved_at 0 achs) eqn:E0; cbn [andb negb orb].
  all: repeat match goal with
         | |- context [if ?c then _ else _] => destruct c
         end;
       rewrite ?achieved_at_unlock_ne by lia;
       try exact E0;
       rewrite ?achieved_at_unlock_same by (rewrite HL; cbv; lia); done.
Qed.

(** What one evaluation does to High Scorer: it is unlocked afterwards
    exactly if it was before or the score passed in is 50 or more,
    whether the round was reported as won or lost. *)
Lemma updateAchievements_high_scorer won sc h tt achs :
  length achs = numAchievements ->
  achieved_at 2 (updateAchievements won sc h tt achs)
  = (50 <=? sc) || achieved_at 2 achs.
Proof.
  intros HL. unfold updateAchievements. cbv zeta.
  set (a1 := if won && negb (achieved_at 0 achs) then unlock 0 achs else achs).
  set (a2 := if won && (h =? 0) && negb (achieved_at 1 a1)
             then unlock 1 a1 else a1).
  assert (L2 : length a2 = numAchievements).
  { subst a2 a1. repeat match goal with
         | |- context [if ?c then _ else _] => destruct c
         end; by rewrite ?unlock_length. }
  assert (E2 : achieved_at 2 a2 = achieved_at 2 achs).
  { subst a2 a1. repeat match goal with
         | |- context [if ?c then _ else _] => destruct c
         end; by rewrite ?achieved_at_unlock_ne by lia. }
  rewrite <- E2. clearbody a2. clear a1 E2.
  destruct (50 <=? sc), (achieved_at 2 a2) eqn:E; cbn [andb negb orb];
    match goal with
    | |- context [if ?c then _ else _] => destruct c
    end;
    rewrite ?achieved_at_unlock_ne by lia; try exact E;
    rewrite ?achieved_at_unlock_same by (rewrite L2; cbv; lia); done.
Qed.

(** The evaluation [main] runs at the top of each pass always reports a
    won round with score 10, no hint and 25 seconds. *)
Lemma playGame_placeholder_eq achs :
  playGame_placeholder achs = updateAchievements true 10 0 25 achs.
Proof. reflexivity. Qed.

Lemma playGame_placeholder_first_win achs :
  length achs = numAchievements ->
  achieved_at 0 (playGame_placeholder achs) = true.
Proof.
  intros HL. rewrite playGame_placeholder_eq.
  by rewrite updateAchievements_first_win.
Qed.

Lemma playGame_placeholder_high_scorer achs :
  length achs = numAchievements ->
  achieved_at 2 (playGame_placeholder achs) = achieved_at 2 achs.
Proof.
  intros HL. rewrite playGame_placeholder_eq.
  by rewrite updateAchievements_high_scorer.
Qed.

(** A round of the game reads and writes no achievement. *)
Lemma playGame_achievements rand difficulty turns s s' :
  playGame rand difficulty turns s = Some s' ->
  s_achievements s' = s_achievements s.
Proof.
  unfold playGame. intros E.
  destruct (s_wordCount s =? 0)%nat; [by inversion E|].
  destruct (filterWordsByDifficulty _ _ _ _) as [fw fc].
  destruct (fc =? 0)%nat; [by inversion E|].
  destruct (scrambleWord _ _ _) as [sw d1].
  destruct (playRound _ _ _ _) as [r|]; [|done].
  by inversion E.
Qed.

(** After a pass of the loop of [main] the achievements are those the
    placeholder evaluation left, whatever the player did in the pass. *)
Lemma mainStep_achievements rand files inp s s' b :
  mainStep rand files inp s = Some (s', b) ->
  s_achievements s' = playGame_placeholder (s_achievements s).
Proof.
  unfold mainStep. intros E.
  destruct (m_option inp =? 1).
  { destruct (playGame _ _ _ _) as [s1|] eqn:P; [|done].
    inversion E; subst. by apply playGame_achievements in P. }
  destruct (m_option inp =? 2).
  { inversion E; subst. unfold displayShop.
    by destruct (m_shopOption inp =? 1). }
  destruct (m_option inp =? 3); by inversion E.
Qed.

Lemma mainLoop_achievements rand files : forall inputs s s',
  length (s_achievements s) = numAchievements ->
  mainLoop rand files inputs s = Some s' ->
  length (s_achievements s') = numAchievements
  /\ achieved_at 0 (s_achievements s') = true
  /\ achieved_at 2 (s_achievements s') = achieved_at 2 (s_achievements s).
Proof.
  induction inputs as [|inp inputs IH]; intros s s' HL E; [done|].
  cbn [mainLoop] in E.
  destruct (mainStep rand files inp s) as [[s1 b]|] eqn:E1; [|done].
  apply mainStep_achievements in E1.
  assert (L1 : length (s_achievements s1) = numAchievements).
  { rewrite E1, playGame_placeholder_eq. by rewrite updateAchievements_length. }
  assert (H2 : achieved_at 2 (s_achievements s1)
               = achieved_at 2 (s_achievements s)).
  { rewrite E1. by apply playGame_placeholder_high_scorer. }
  destruct b.
  - inversion E; subst. split; [done|]. split; [|done].
    rewrite E1. by apply playGame_placeholder_first_win.
  - apply IH in E; [|done]. destruct E as (? & ? & E3).
    split; [done|]. split; [done|]. by rewrite E3.
Qed.

(** In every session that runs to its end, First Win is unlocked and
    High Scorer is not, whatever was played and whatever the score. *)
Lemma main_achievements rand files inputs s :
  main rand files inputs = Some s ->
  achieved_at 0 (s_achievements s) = true
  /\ achieved_at 2 (s_achievements s) = false.
Proof.
  unfold main. intros E.
  apply mainLoop_achievements in E; [|done].
  destruct E as (_ & E0 & E2). split; [done|]. by rewrite E2.
Qed.

(** C1.  A session in which the player leaves at the first menu: no
    round is played (the streak counters and the score are still 0),
    and First Win is unlocked all the same.  The evaluation that
    unlocks it ran before the menu, with [wonGame = true] taken from a
    local variable and not from a round. *)
Theorem first_win_without_a_round (rand : nat -> nat) (files : Files) :
  exists s,
    main rand files [exitNow] = Some s
    /\ achieved_at 0 (s_achievements s) = true
    /\ s_score s = 0 /\ s_highestScore s = 0
    /\ s_streak s = 0 /\ s_maxStreak s = 0.
Proof.
  eexists. split; [reflexivity|]. cbn. done.
Qed.

(** C2.  A session in which the one word of the dictionary is guessed
    at the first try six times in a row: the score goes 5, 12, 21, 32,
    45, 60, and High Scorer is still locked when the player leaves.
    The evaluation of the achievements is given the constant 10 as the
    score. *)
Theorem high_scorer_locked_at_60 :
  exists s,
    main (fun _ => 0%nat) houseFiles (replicate 6 winHouse ++ [exitNow])
    = Some s
    /\ s_score s = 60 /\ s_highestScore s = 60
    /\ achieved_at 2 (s_achievements s) = false.
Proof.
  eexists. split; [vm_compute; reflexivity|]. cbn. done.
Qed.

(** * Further properties of the code *)

(** ** Loading words: what is stored, and which indices are touched *)

(** What the loop does, in closed form.  With [n] the smaller of the
    number of tokens and the room left in the array, the loop stores
    the first [n] tokens from [count] on, evaluates the indices
    [count] to [count + n], and extracts [n + 1] tokens if there are
    that many; it writes outside the array exactly when there are more
    tokens than room. *)
Lemma loadLoop_spec : forall tokens words count indexed,
  (count <= maxWords)%nat -> length words = maxWords ->
  let n := (length tokens `min` (maxWords - count))%nat in
  loadLoop tokens words count indexed =
  (take count words ++ take n tokens ++ drop (count + n) words,
   (count + n)%nat, drop (S n) tokens, indexed ++ seq count (S n),
   (maxWords - count <? length tokens)%nat).
Proof.
  induction tokens as [|t rest IH]; intros words count indexed Hc HL n.
  - subst n. cbn [loadLoop length Nat.min take drop seq].
    rewrite Nat.add_0_r, app_nil_l, take_drop. done.
  - cbn [loadLoop]. destruct (Nat.ltb_spec count maxWords) as [Hlt|Hge].
    + rewrite IH by (rewrite ?length_insert; lia). subst n.
      cbn [length].
      replace (maxWords - S count <? length rest)%nat
        with (maxWords - count <? S (length rest))%nat
        by (destruct (Nat.ltb_spec (maxWords - count) (S (length rest)));
            destruct (Nat.ltb_spec (maxWords - S count) (length rest));
            done || lia).
      replace (S (length rest) `min` (maxWords - count))%nat
        with (S (length rest `min` (maxWords - S count)))%nat by lia.
      set (m := (length rest `min` (maxWords - S count))%nat).
      rewrite (take_S_r (<[count:=t]> words) count t)
        by (apply list_lookup_insert_eq; lia).
      rewrite take_insert_ge by lia.
      rewrite drop_insert_lt by lia.
      cbn [take drop seq].
      replace (S count + m)%nat with (count + S m)%nat by lia.
      rewrite <- !app_assoc. done.
    + subst n. replace (maxWords - count)%nat with 0%nat by lia.
      rewrite Nat.min_0_r. cbn [take drop seq length Nat.ltb Nat.leb].
      rewrite list_insert_ge by lia.
      rewrite Nat.add_0_r, app_nil_l, take_drop. done.
Qed.

Lemma loadWords_closed_form file words startIndex :
  (startIndex <= maxWords)%nat -> length words = maxWords ->
  let tokens := ifstream file in
  let n := (length tokens `min` (maxWords - startIndex))%nat in
  loadWords file words startIndex =
  mkLoaded
    (take startIndex words ++ take n tokens ++ drop (startIndex + n) words)
    n (drop (S n) tokens) (seq startIndex (S n))
    (maxWords - startIndex <? length tokens)%nat.
Proof.
  intros Hs HL tokens n. unfold loadWords.
  rewrite loadLoop_spec by done. fold tokens. fold n.
  rewrite app_nil_l. f_equal. lia.
Qed.

(** X1.  A load for which there is room, that is, into a store of
    [startIndex] words from a file whose words all fit behind them,
    stores every word of the file, in the order of the file, right
    after the words already there, and returns their number; the words
    already stored, the entries behind the loaded ones and the size of
    the array are as before; nothing of the file is left unread and
    nothing is written outside the array. *)
Theorem loadWords_appends_in_order (file : option (list string))
    (words : list string) (startIndex : nat) :
  let tokens := ifstream file in
  let ld := loadWords file words startIndex in
  length words = maxWords ->
  (startIndex + length tokens <= maxWords)%nat ->
  ld_count ld = length tokens
  /\ take (startIndex + length tokens) (ld_words ld)
     = take startIndex words ++ tokens
  /\ drop (startIndex + length tokens) (ld_words ld)
     = drop (startIndex + length tokens) words
  /\ length (ld_words ld) = maxWords
  /\ ld_unread ld = []
  /\ ld_overflow ld = false.
Proof.
  intros tokens ld HL Hroom. subst ld.
  rewrite loadWords_closed_form by (lia || done). fold tokens.
  replace (length tokens `min` (maxWords - startIndex))%nat
    with (length tokens) by lia.
  cbn [ld_count ld_words ld_unread ld_overflow].
  rewrite firstn_all.
  assert (L1 : length (take startIndex words) = startIndex)
    by (rewrite length_take; lia).
  split; [done|]. split; [|split; [|split; [|split]]].
  - rewrite app_assoc. apply take_app_length'.
    rewrite length_app. lia.
  - rewrite app_assoc. apply drop_app_length'.
    rewrite length_app. lia.
  - rewrite !length_app, length_drop. lia.
  - apply drop_ge. lia.
  - apply Nat.ltb_ge. lia.
Qed.

Lemma loadWords_appends_witness :
  length (s_words (startSession houseFiles)) = maxWords
  /\ (1 + length (ifstream (shopFiles "dictionary2.txt"%string))
      <= maxWords)%nat
  /\ ld_count (loadWords (shopFiles "dictionary2.txt"%string)
                         (s_words (startSession houseFiles)) 1)
     = 3%nat
  /\ take 4 (ld_words (loadWords (shopFiles "dictionary2.txt"%string)
                                 (s_words (startSession houseFiles)) 1))
     = ["house"; "elephant"; "giraffe"; "hippopotamus"]%string.
Proof.
  assert (H1 : length (s_words (startSession houseFiles)) = maxWords)
    by reflexivity.
  assert (H2 : (1 + length (ifstream (shopFiles "dictionary2.txt"%string))
                <= maxWords)%nat) by (vm_compute; lia).
  split; [exact H1|]. split; [exact H2|].
  destruct (loadWords_appends_in_order (shopFiles "dictionary2.txt"%string)
              (s_words (startSession houseFiles)) 1 H1 H2) as (E1 & E2 & _).
  split; [exact E1|exact E2].
Defined.

(** A file with more words than there is room for: the load is marked
    as having written outside the array. *)
Example loadWords_overflow_example :
  ld_overflow (loadWords (shopFiles "dictionary2.txt"%string) nearlyFull 198)
  = true.
Proof. reflexivity. Qed.

(** X2.  The indices at which a load evaluates [words[i]] are
    [startIndex], ..., [startIndex + n], one more than it stores; it
    extracts [n + 1] words from the file when the file has that many.
    So the load stays inside the array exactly when the file has fewer
    words than there is room left. *)
Theorem loadWords_in_bounds_iff (file : option (list string))
    (words : list string) (startIndex : nat) :
  (startIndex <= maxWords)%nat ->
  length words = maxWords ->
  let tokens := ifstream file in
  let n := (length tokens `min` (maxWords - startIndex))%nat in
  let ld := loadWords file words startIndex in
  ld_indexed ld = seq startIndex (S n)
  /\ ld_unread ld = drop (S n) tokens
  /\ (Forall (fun i => (i < maxWords)%nat) (ld_indexed ld)
      <-> (startIndex + length tokens < maxWords)%nat).
Proof.
  intros Hs HL tokens n ld. subst ld.
  rewrite loadWords_closed_form by done. fold tokens. fold n.
  cbn [ld_indexed ld_unread].
  split; [done|]. split; [done|].
  rewrite Forall_seq. split.
  - intros H. specialize (H (startIndex + n)%nat). lia.
  - intros H j Hj. lia.
Qed.

Lemma loadWords_in_bounds_witness :
  (198 <= maxWords)%nat /\ length nearlyFull = maxWords
  /\ ld_indexed (loadWords (shopFiles "dictionary2.txt"%string) nearlyFull 198)
     = [198; 199; 200]%nat
  /\ ld_unread (loadWords (shopFiles "dictionary2.txt"%string) nearlyFull 198)
     = [].
Proof.
  assert (H1 : (198 <= maxWords)%nat) by (unfold maxWords; lia).
  assert (H2 : length nearlyFull = maxWords) by reflexivity.
  split; [exact H1|]. split; [exact H2|].
  destruct (loadWords_in_bounds_iff (shopFiles "dictionary2.txt"%string)
              nearlyFull 198 H1 H2) as (E1 & E2 & _).
  split; [exact E1|exact E2].
Defined.

(** ** The store over a session *)

Lemma displayShop_closed_form files s :
  (s_wordCount s <= maxWords)%nat -> length (s_words s) = maxWords ->
  let tokens := ifstream (files "dictionary2.txt"%string) in
  let n := (length tokens `min` (maxWords - s_wordCount s))%nat in
  displayShop files 1 s =
  mkSession (s_score s) (s_highestScore s) (s_streak s) (s_maxStreak s)
    (take (s_wordCount s) (s_words s) ++ take n tokens
       ++ drop (s_wordCount s + n) (s_words s))
    (s_wordCount s + n) (s_achievements s) (s_draws s).
Proof.
  intros Hc HL tokens n. unfold displayShop. cbn [Z.eqb Pos.eqb].
  rewrite loadWords_closed_form by done. done.
Qed.

(** The words in use are the first [s_wordCount] entries of the array. *)
Lemma displayShop_store files shopOption s :
  (s_wordCount s <= maxWords)%nat -> length (s_words s) = maxWords ->
  let s' := displayShop files shopOption s in
  (s_wordCount s' <= maxWords)%nat /\ length (s_words s') = maxWords
  /\ take (s_wordCount s) (s_words s)
     `prefix_of` take (s_wordCount s') (s_words s').
Proof.
  intros Hc HL s'. subst s'.
  destruct (decide (shopOption = 1)) as [->|Hne].
  - rewrite displayShop_closed_form by done. cbn [s_wordCount s_words].
    set (tokens := ifstream (files "dictionary2.txt"%string)).
    set (n := (length tokens `min` (maxWords - s_wordCount s))%nat).
    assert (L1 : length (take (s_wordCount s) (s_words s)) = s_wordCount s)
      by (rewrite length_take; lia).
    assert (L2 : length (take n tokens) = n) by (rewrite length_take; lia).
    split; [lia|]. split.
    + rewrite !length_app, length_drop. lia.
    + rewrite app_assoc, take_app_length' by (rewrite length_app; lia).
      by apply prefix_app_r.
  - unfold displayShop. destruct (Z.eqb_spec shopOption 1); [done|].
    split; [done|]. split; done.
Qed.

(** A round leaves the store and the achievements alone, and lowers
    neither the highest score nor the longest streak. *)
Lemma guessStep_records (rand : nat -> nat) (word : string) (t : Turn)
    (r : Round) :
  let r' := guessStep rand word t r in
  highestScore r <= highestScore r'
  /\ maxStreak r <= maxStreak r'
  /\ (0 <= maxStreak r -> streak r <= maxStreak r ->
      streak r' <= maxStreak r').
Proof.
  intros r'. subst r'. unfold guessStep.
  destruct (decide (guess t = "hint"%string)) as [Hh|Hh].
  { destruct (useHint _ _ _ _ _ _) as [[[o h] sc] d].
    cbn [highestScore maxStreak streak]. lia. }
  destruct (decide (guess t = word)) as [Hw|Hw].
  - unfold updateScore. cbn [highestScore maxStreak streak].
    destruct (Z.ltb_spec (highestScore r)
      (Int.add (score r)
         (Int.add (Int.of_size (String.length word))
            (Int.mul (streak r) 2))));
    destruct (Z.ltb_spec (maxStreak r) (Int.add (streak r) 1)); lia.
  - cbn [highestScore maxStreak streak]. lia.
Qed.

Lemma guessLoop_records rand word : forall turns r1 r,
  guessLoop rand word turns r1 = Some r ->
  highestScore r1 <= highestScore r
  /\ maxStreak r1 <= maxStreak r
  /\ (0 <= maxStreak r1 -> streak r1 <= maxStreak r1 ->
      streak r <= maxStreak r).
Proof.
  induction turns as [|t turns IH]; intros r1 r E; cbn [guessLoop] in E.
  - destruct ((0 <? attemptsLeft r1) && negb (wordGuessed r1));
      inversion E; subst; lia.
  - destruct ((0 <? attemptsLeft r1) && negb (wordGuessed r1)).
    + apply IH in E.
      pose proof (guessStep_records rand word t r1) as H. cbv zeta in H. lia.
    + inversion E; subst; lia.
Qed.

Lemma playRound_records rand word turns r1 r :
  playRound rand word turns r1 = Some r ->
  highestScore r1 <= highestScore r
  /\ maxStreak r1 <= maxStreak r
  /\ (0 <= maxStreak r1 -> streak r1 <= maxStreak r1 ->
      streak r <= maxStreak r).
Proof.
  unfold playRound. intros E.
  destruct (guessLoop rand word turns r1) as [r2|] eqn:E2; [|done].
  apply guessLoop_records in E2. inversion E; subst.
  unfold roundEnd. destruct (negb (wordGuessed r2));
    cbn [highestScore maxStreak streak]; done.
Qed.

Lemma playGame_frame rand difficulty turns s s' :
  playGame rand difficulty turns s = Some s' ->
  s_words s' = s_words s /\ s_wordCount s' = s_wordCount s
  /\ s_achievements s' = s_achievements s
  /\ s_highestScore s <= s_highestScore s'
  /\ s_maxStreak s <= s_maxStreak s'
  /\ (0 <= s_maxStreak s -> s_streak s <= s_maxStreak s ->
      s_streak s' <= s_maxStreak s').
Proof.
  unfold playGame. intros E.
  destruct (s_wordCount s =? 0)%nat;
    [inversion E; subst; repeat split; lia|].
  destruct (filterWordsByDifficulty _ _ _ _) as [fw fc].
  destruct (fc =? 0)%nat; [inversion E; subst; repeat split; lia|].
  destruct (scrambleWord _ _ _) as [sw d1].
  destruct (playRound _ _ _ _) as [r|] eqn:P; [|done].
  apply playRound_records in P. inversion E; subst.
  cbn [s_words s_wordCount s_achievements s_highestScore s_maxStreak
       s_streak highestScore maxStreak streak] in *.
  repeat split; try done; lia.
Qed.

(** What a pass of the loop of [main] keeps. *)
Lemma mainStep_keeps rand files inp s s' b :
  mainStep rand files inp s = Some (s', b) ->
  (s_wordCount s <= maxWords)%nat -> length (s_words s) = maxWords ->
  ((s_wordCount s' <= maxWords)%nat /\ length (s_words s') = maxWords
   /\ take (s_wordCount s) (s_words s)
      `prefix_of` take (s_wordCount s') (s_words s'))
  /\ s_highestScore s <= s_highestScore s'
  /\ s_maxStreak s <= s_maxStreak s'
  /\ (0 <= s_maxStreak s -> s_streak s <= s_maxStreak s ->
      s_streak s' <= s_maxStreak s').
Proof.
  unfold mainStep. cbv zeta.
  set (s1 := mkSession (s_score s) (s_highestScore s) (s_streak s)
               (s_maxStreak s) (s_words s) (s_wordCount s)
               (playGame_placeholder (s_achievements s)) (s_draws s)).
  intros E Hc HL.
  destruct (m_option inp =? 1).
  { destruct (playGame _ _ _ _) as [s2|] eqn:P; [|done].
    inversion E; subst. apply playGame_frame in P.
    cbn [s1 s_words s_wordCount s_highestScore s_maxStreak s_streak] in P.
    destruct P as (-> & -> & _ & ? & ? & ?). repeat split; done. }
  destruct (m_option inp =? 2).
  { inversion E; subst.
    split; [exact (displayShop_store files (m_shopOption inp) s1 Hc HL)|].
    unfold displayShop. destruct (m_shopOption inp =? 1);
      cbn [s1 s_highestScore s_maxStreak s_streak]; repeat split; lia. }
  destruct (m_option inp =? 3); inversion E; subst;
    cbn [s1 s_words s_wordCount s_highestScore s_maxStreak s_streak];
    repeat split; done || lia.
Qed.

Lemma mainLoop_keeps rand files : forall inputs s s',
  mainLoop rand files inputs s = Some s' ->
  (s_wordCount s <= maxWords)%nat -> length (s_words s) = maxWords ->
  ((s_wordCount s' <= maxWords)%nat /\ length (s_words s') = maxWords
   /\ take (s_wordCount s) (s_words s)
      `prefix_of` take (s_wordCount s') (s_words s'))
  /\ s_highestScore s <= s_highestScore s'
  /\ s_maxStreak s <= s_maxStreak s'
  /\ (0 <= s_maxStreak s -> s_streak s <= s_maxStreak s ->
      s_streak s' <= s_maxStreak s').
Proof.
  induction inputs as [|inp inputs IH]; intros s s' E Hc HL; [done|].
  cbn [mainLoop] in E.
  destruct (mainStep rand files inp s) as [[s1 b]|] eqn:E1; [|done].
  apply mainStep_keeps in E1; [|done|done].
  destruct E1 as ((C1 & L1 & P1) & H1 & M1 & S1).
  destruct b.
  - inversion E; subst. done.
  - apply IH in E; [|done|done].
    destruct E as ((C2 & L2 & P2) & H2 & M2 & S2).
    split; [split; [done|split; [done|by etrans]]|].
    split; [lia|]. split; [lia|]. intros. apply S2; [lia|]. by apply S1.
Qed.

Lemma startSession_store files :
  (s_wordCount (startSession files) <= maxWords)%nat
  /\ length (s_words (startSession files)) = maxWords.
Proof.
  unfold startSession.
  rewrite loadWords_closed_form by (rewrite ?length_replicate; done || lia).
  cbn [s_wordCount s_words ld_count ld_words].
  split; [lia|].
  rewrite !length_app, length_drop, !length_take, length_replicate. lia.
Qed.

(** X3.  In every session that runs to its end the number of stored
    words is at most 200, the array keeps its 200 entries, and the
    words that were in use after the first dictionary was loaded are
    still the first words in use: the shop only ever adds behind
    them. *)
Theorem session_store_invariant (rand : nat -> nat) (files : Files)
    (inputs : list MenuInput) (s : Session) :
  main rand files inputs = Some s ->
  (s_wordCount s <= maxWords)%nat
  /\ length (s_words s) = maxWords
  /\ take (s_wordCount (startSession files)) (s_words (startSession files))
     `prefix_of` take (s_wordCount s) (s_words s).
Proof.
  unfold main. intros E.
  destruct (startSession_store files) as [Hc HL].
  apply mainLoop_keeps in E; [|done|done]. tauto.
Qed.

Lemma session_store_witness :
  main (fun _ => 0%nat) houseFiles [winHouse; mkMenuInput 2 0 [] 1; exitNow]
  = Some (mkSession 5 5 1 1 (["house"%string] ++ replicate 199 ""%string) 1
            (playGame_placeholder achievements0) 6)
  /\ (1 <= maxWords)%nat.
Proof.
  assert (E : main (fun _ => 0%nat) houseFiles
                [winHouse; mkMenuInput 2 0 [] 1; exitNow]
              = Some (mkSession 5 5 1 1
                        (["house"%string] ++ replicate 199 ""%string) 1
                        (playGame_placeholder achievements0) 6))
    by (vm_compute; reflexivity).
  split; [exact E|].
  exact (proj1 (session_store_invariant _ _ _ _ E)).
Defined.

(** X4.  Whatever is played, a round changes neither the stored words,
    nor their number, nor the achievements; the highest score and the
    longest streak after it are at least what they were before; and
    if the streak was at most the longest streak, it still is. *)
Theorem playGame_keeps_store_and_records (rand : nat -> nat)
    (difficulty : Z) (turns : list Turn) (s s' : Session) :
  playGame rand difficulty turns s = Some s' ->
  s_words s' = s_words s /\ s_wordCount s' = s_wordCount s
  /\ s_achievements s' = s_achievements s
  /\ s_highestScore s <= s_highestScore s'
  /\ s_maxStreak s <= s_maxStreak s'
  /\ (0 <= s_maxStreak s -> s_streak s <= s_maxStreak s ->
      s_streak s' <= s_maxStreak s').
Proof.
  unfold playGame. intros E.
  destruct (s_wordCount s =? 0)%nat;
    [inversion E; subst; repeat split; lia|].
  destruct (filterWordsByDifficulty _ _ _ _) as [fw fc].
  destruct (fc =? 0)%nat; [inversion E; subst; repeat split; lia|].
  destruct (scrambleWord _ _ _) as [sw d1].
  destruct (playRound _ _ _ _) as [r|] eqn:P; [|done].
  destruct (playRound_records _ _ _ _ _ P) as (H & M & S).
  inversion E; subst.
  cbn [s_words s_wordCount s_achievements s_highestScore s_maxStreak
       s_streak highestScore maxStreak streak] in *.
  repeat split; try done; lia.
Qed.

Lemma playGame_keeps_witness :
  playGame (fun _ => 0%nat) 1 [mkTurn "hint" 1; mkTurn "house" 0]
           (startSession houseFiles)
  = Some (mkSession 4 4 1 1 (["house"%string] ++ replicate 199 ""%string) 1
            achievements0 6)
  /\ s_highestScore (startSession houseFiles) <= 4.
Proof.
  assert (E : playGame (fun _ => 0%nat) 1 [mkTurn "hint" 1; mkTurn "house" 0]
                (startSession houseFiles)
              = Some (mkSession 4 4 1 1
                        (["house"%string] ++ replicate 199 ""%string) 1
                        achievements0 6))
    by (vm_compute; reflexivity).
  split; [exact E|].
  exact (proj1 (proj2 (proj2 (proj2
           (playGame_keeps_store_and_records _ _ _ _ _ E))))).
Defined.

(** X5.  At the end of every session the highest score and the longest
    streak are not negative, and the current streak is not above the
    longest streak.  This holds without any assumption on the size of
    the numbers, because both records are only ever replaced by a
    larger value. *)
Theorem session_records (rand : nat -> nat) (files : Files)
    (inputs : list MenuInput) (s : Session) :
  main rand files inputs = Some s ->
  0 <= s_highestScore s /\ 0 <= s_maxStreak s
  /\ s_streak s <= s_maxStreak s.
Proof.
  unfold main. intros E.
  destruct (startSession_store files) as [Hc HL].
  apply mainLoop_keeps in E; [|done|done].
  destruct E as (_ & H & M & S).
  cbn [startSession s_highestScore s_maxStreak s_streak] in *.
  split; [done|]. split; [done|]. apply S; done.
Qed.

Lemma session_records_witness :
  main (fun _ => 0%nat) houseFiles
       [winHouse; mkMenuInput 1 1 [mkTurn "horse" 0; mkTurn "house" 0] 0;
        exitNow]
  = Some (mkSession 10 10 1 1 (["house"%string] ++ replicate 199 ""%string) 1
            (playGame_placeholder achievements0) 12)
  /\ (1 : Z) <= 1.
Proof.
  assert (E : main (fun _ => 0%nat) houseFiles
       [winHouse; mkMenuInput 1 1 [mkTurn "horse" 0; mkTurn "house" 0] 0;
        exitNow]
  = Some (mkSession 10 10 1 1 (["house"%string] ++ replicate 199 ""%string) 1
            (playGame_placeholder achievements0) 12))
    by (vm_compute; reflexivity).
  split; [exact E|].
  exact (proj2 (proj2 (session_records _ _ _ _ E))).
Defined.

(** X6.  Every visit to the shop that chooses to load appends the whole
    second dictionary again: after two visits, with room for both
    copies, the store holds the words it had, then the words of the
    file, then the words of the file once more. *)
Theorem shop_twice_appends_twice (files : Files) (s : Session) :
  let tokens := ifstream (files "dictionary2.txt"%string) in
  let s'' := displayShop files 1 (displayShop files 1 s) in
  length (s_words s) = maxWords ->
  (s_wordCount s + 2 * length tokens <= maxWords)%nat ->
  s_wordCount s'' = (s_wordCount s + 2 * length tokens)%nat
  /\ take (s_wordCount s'') (s_words s'')
     = take (s_wordCount s) (s_words s) ++ tokens ++ tokens.
Proof.
  intros tokens s'' HL Hroom. subst s''.
  assert (L1 : length (take (s_wordCount s) (s_words s)) = s_wordCount s)
    by (rewrite length_take; lia).
  rewrite (displayShop_closed_form files s) by (done || lia).
  fold tokens.
  replace (length tokens `min` (maxWords - s_wordCount s))%nat
    with (length tokens) by lia.
  rewrite firstn_all.
  set (s1 := mkSession _ _ _ _ _ _ _ _).
  assert (HL1 : length (s_words s1) = maxWords).
  { cbn [s1 s_words]. rewrite !length_app, length_drop. lia. }
  rewrite (displayShop_closed_form files s1) by (done || cbn; lia).
  fold tokens. cbn [s1 s_wordCount s_words].
  replace (length tokens `min` (maxWords - (s_wordCount s + length tokens)))%nat
    with (length tokens) by lia.
  rewrite firstn_all.
  split; [lia|].
  rewrite !app_assoc.
  rewrite (take_app_length' _ _ (s_wordCount s + length tokens)%nat)
    by (rewrite length_app; lia).
  rewrite take_app_length'; [done|].
  rewrite !length_app. lia.
Qed.

Lemma shop_twice_witness :
  length (s_words (startSession houseFiles)) = maxWords
  /\ take 7 (s_words (displayShop shopFiles 1
               (displayShop shopFiles 1 (startSession houseFiles))))
     = ["house"; "elephant"; "giraffe"; "hippopotamus";
        "elephant"; "giraffe"; "hippopotamus"]%string.
Proof.
  assert (H1 : length (s_words (startSession houseFiles)) = maxWords)
    by reflexivity.
  assert (H2 : (s_wordCount (startSession houseFiles)
                + 2 * length (ifstream (shopFiles "dictionary2.txt"%string))
                <= maxWords)%nat) by (vm_compute; lia).
  split; [exact H1|].
  destruct (shop_twice_appends_twice shopFiles (startSession houseFiles)
              H1 H2) as [E1 E2].
  rewrite E1 in E2. exact E2.
Defined.

(** ** Rounds over any sequence of turns *)

(** The three ways a pass of the guessing loop can go. *)
Lemma guessStep_cases (rand : nat -> nat) (word : string) (t : Turn)
    (r : Round) :
  let r' := guessStep rand word t r in
  (guess t = "hint"%string
   /\ attemptsLeft r' = attemptsLeft r /\ streak r' = streak r
   /\ wordGuessed r' = wordGuessed r
   /\ highestScore r' = highestScore r /\ maxStreak r' = maxStreak r)
  \/ (guess t <> "hint"%string /\ guess t = word
      /\ wordGuessed r' = true /\ attemptsLeft r' = attemptsLeft r
      /\ hintsUsed r' = hintsUsed r
      /\ highestScore r <= highestScore r' /\ maxStreak r <= maxStreak r')
  \/ (guess t <> "hint"%string /\ guess t <> word
      /\ attemptsLeft r' = Int.sub (attemptsLeft r) 1 /\ streak r' = 0
      /\ wordGuessed r' = wordGuessed r /\ hintsUsed r' = hintsUsed r
      /\ score r' = score r
      /\ highestScore r' = highestScore r /\ maxStreak r' = maxStreak r).
Proof.
  intros r'. subst r'. unfold guessStep.
  destruct (decide (guess t = "hint"%string)) as [Hh|Hh].
  { left. destruct (useHint _ _ _ _ _ _) as [[[o h] s] d]. done. }
  destruct (decide (guess t = word)) as [Hw|Hw].
  - right. left. unfold updateScore.
    cbn [wordGuessed attemptsLeft hintsUsed highestScore maxStreak].
    repeat split; try done.
    + destruct (Z.ltb_spec (highestScore r)
        (Int.add (score r)
           (Int.add (Int.of_size (String.length word))
              (Int.mul (streak r) 2)))); lia.
    + destruct (Z.ltb_spec (maxStreak r) (Int.add (streak r) 1)); lia.
  - right. right. done.
Qed.

Lemma guessLoop_done rand word turns r :
  wordGuessed r = true -> guessLoop rand word turns r = Some r.
Proof.
  intros H. destruct turns; cbn [guessLoop]; rewrite H;
    by rewrite andb_false_r.
Qed.

Lemma guessLoop_out rand word turns r :
  attemptsLeft r <= 0 -> guessLoop rand word turns r = Some r.
Proof.
  intros H. destruct turns; cbn [guessLoop];
    destruct (Z.ltb_spec 0 (attemptsLeft r)); try lia; done.
Qed.

Lemma sub_one_small a : 0 < a <= 3 -> Int.sub a 1 = a - 1.
Proof.
  intros H. unfold Int.sub. apply wrap_in_range.
  unfold Int.in_range, Int.INT_MIN, Int.INT_MAX. lia.
Qed.

(** Invariant of a lost round. *)
Lemma guessLoop_lost rand word : forall turns r1 r,
  guessLoop rand word turns r1 = Some r ->
  wordGuessed r = false ->
  0 <= attemptsLeft r1 <= 3 ->
  (attemptsLeft r1 < 3 -> streak r1 = 0) ->
  attemptsLeft r = 0 /\ streak r = 0
  /\ highestScore r = highestScore r1 /\ maxStreak r = maxStreak r1.
Proof.
  induction turns as [|t turns IH]; intros r1 r E Hw Ha Hs;
    cbn [guessLoop] in E.
  - destruct (Z.ltb_spec 0 (attemptsLeft r1)), (wordGuessed r1) eqn:Hg;
      cbn in E; inversion E; subst; try congruence.
    repeat split; lia.
  - destruct (Z.ltb_spec 0 (attemptsLeft r1)) as [Hpos|Hnp];
      destruct (wordGuessed r1) eqn:Hg; cbn [andb negb] in E;
      try (inversion E; subst; try congruence;
           repeat split; try lia; apply Hs; lia).
    destruct (guessStep_cases rand word t r1)
      as [(_ & A & S & W & H & M)|[(_ & _ & W & _)|(_ & _ & A & S & W & _ & _ & H & M)]].
    + apply IH in E; try done; [|lia|rewrite A, S; done].
      rewrite H, M in E. done.
    + rewrite guessLoop_done in E by done. inversion E; subst. congruence.
    + rewrite sub_one_small in A by lia.
      apply IH in E; try done; [|lia].
      rewrite H, M in E. done.
Qed.

(** The hint counter stays between 0 and 2. *)
Lemma guessStep_hintsUsed rand word t r :
  0 <= hintsUsed r <= 2 -> 0 <= hintsUsed (guessStep rand word t r) <= 2.
Proof.
  intros H. unfold guessStep.
  destruct (decide (guess t = "hint"%string)) as [Hh|Hh].
  - unfold useHint, maxHintsPerWord.
    destruct (Z.geb_spec (hintsUsed r) 2); [done|].
    assert (E : Int.add (hintsUsed r) 1 = hintsUsed r + 1).
    { unfold Int.add. apply wrap_in_range.
      unfold Int.in_range, Int.INT_MIN, Int.INT_MAX. lia. }
    destruct (hintChoice t =? 1); cbn [hintsUsed]; [lia|].
    destruct (hintChoice t =? 2); cbn [hintsUsed]; [lia|].
    destruct (hintChoice t =? 3); cbn [hintsUsed]; lia.
  - destruct (decide (guess t = word)); [|done].
    unfold updateScore. done.
Qed.

Lemma guessLoop_hintsUsed rand word : forall turns r1 r,
  guessLoop rand word turns r1 = Some r ->
  0 <= hintsUsed r1 <= 2 -> 0 <= hintsUsed r <= 2.
Proof.
  induction turns as [|t turns IH]; intros r1 r E H; cbn [guessLoop] in E.
  - destruct ((0 <? attemptsLeft r1) && negb (wordGuessed r1));
      inversion E; by subst.
  - destruct ((0 <? attemptsLeft r1) && negb (wordGuessed r1)).
    + apply IH in E; [done|]. by apply guessStep_hintsUsed.
    + inversion E; by subst.
Qed.

(** Enough guesses end the loop. *)
Lemma guessLoop_ends rand word : forall turns r1,
  0 <= attemptsLeft r1 <= 3 ->
  attemptsLeft r1 <= Z.of_nat (countGuesses turns) ->
  is_Some (guessLoop rand word turns r1).
Proof.
  unfold countGuesses.
  induction turns as [|t turns IH]; intros r1 Ha Hn.
  - cbn in Hn. rewrite guessLoop_out by lia. done.
  - cbn [guessLoop].
    destruct ((0 <? attemptsLeft r1) && negb (wordGuessed r1)) eqn:C; [|done].
    apply andb_true_iff in C as [C1 C2]. apply Z.ltb_lt in C1.
    rewrite filter_cons in Hn.
    destruct (guessStep_cases rand word t r1)
      as [(G & A & _)|[(G & _ & W & _)|(G & _ & A & _)]].
    + rewrite decide_False in Hn by (intros X; by apply X).
      apply IH; rewrite A; done.
    + rewrite guessLoop_done by done. done.
    + rewrite decide_True in Hn by done. cbn [length] in Hn.
      rewrite sub_one_small in A by lia.
      apply IH; rewrite A; lia.
Qed.

(** Hints alone never end a round. *)
Lemma guessLoop_only_hints rand word : forall turns r1,
  countGuesses turns = 0%nat ->
  0 < attemptsLeft r1 -> wordGuessed r1 = false ->
  guessLoop rand word turns r1 = None.
Proof.
  unfold countGuesses.
  induction turns as [|t turns IH]; intros r1 Hn Ha Hg; cbn [guessLoop].
  - destruct (Z.ltb_spec 0 (attemptsLeft r1)); [|lia]. by rewrite Hg.
  - destruct (Z.ltb_spec 0 (attemptsLeft r1)); [|lia]. rewrite Hg.
    cbn [andb negb]. rewrite filter_cons in Hn.
    destruct (guessStep_cases rand word t r1)
      as [(G & A & _ & W & _)|[(G & _)|(G & _)]].
    + rewrite decide_False in Hn by (intros X; by apply X).
      apply IH; [done|lia|congruence].
    + rewrite decide_True in Hn by done. done.
    + rewrite decide_True in Hn by done. done.
Qed.

(** X7.  A round that starts with three attempts and ends without the
    word having been guessed ends with no attempt left, with the score
    and the streak at 0, and with the highest score and the longest
    streak as they were when it started. *)
Theorem lost_round_outcome (rand : nat -> nat) (word : string)
    (turns : list Turn) (r0 r : Round) :
  playRound rand word turns r0 = Some r ->
  attemptsLeft r0 = 3 ->
  wordGuessed r = false ->
  attemptsLeft r = 0 /\ streak r = 0 /\ score r = 0
  /\ highestScore r = highestScore r0 /\ maxStreak r = maxStreak r0.
Proof.
  unfold playRound. intros E Ha Hw.
  destruct (guessLoop rand word turns r0) as [r1|] eqn:E1; [|done].
  inversion E; subst. clear E. unfold roundEnd in *.
  destruct (wordGuessed r1) eqn:Hg; cbn [negb] in *; [congruence|].
  apply guessLoop_lost in E1; [|done|lia|lia].
  cbn [attemptsLeft streak score highestScore maxStreak]. tauto.
Qed.

Lemma lost_round_witness :
  playRound (fun _ => 0%nat) "house"
    [mkTurn "horse" 0; mkTurn "hint" 2; mkTurn "mouse" 0; mkTurn "hose" 0]
    (mkRound 7 9 1 2 3 0 false 0)
  = Some (mkRound 0 9 0 2 0 1 false 0)
  /\ streak (mkRound 0 9 0 2 0 1 false 0) = 0.
Proof.
  assert (E : playRound (fun _ => 0%nat) "house"
    [mkTurn "horse" 0; mkTurn "hint" 2; mkTurn "mouse" 0; mkTurn "hose" 0]
    (mkRound 7 9 1 2 3 0 false 0)
  = Some (mkRound 0 9 0 2 0 1 false 0)) by (vm_compute; reflexivity).
  split; [exact E|].
  exact (proj1 (proj2 (lost_round_outcome _ _ _ _ _ E eq_refl eq_refl))).
Defined.

(** X8.  However often the player asks, a round that starts with no
    hint used ends with at most two hints used. *)
Theorem round_hint_cap (rand : nat -> nat) (word : string)
    (turns : list Turn) (r0 r : Round) :
  playRound rand word turns r0 = Some r ->
  hintsUsed r0 = 0 ->
  0 <= hintsUsed r <= 2.
Proof.
  unfold playRound. intros E H0.
  destruct (guessLoop rand word turns r0) as [r1|] eqn:E1; [|done].
  inversion E; subst. clear E.
  apply guessLoop_hintsUsed in E1; [|lia].
  unfold roundEnd. destruct (negb (wordGuessed r1)); cbn [hintsUsed]; done.
Qed.

Lemma round_hint_cap_witness :
  playRound (fun _ => 0%nat) "house"
    [mkTurn "hint" 1; mkTurn "hint" 2; mkTurn "hint" 3; mkTurn "hint" 1;
     mkTurn "house" 0]
    (mkRound 7 9 1 2 3 0 false 0)
  = Some (mkRound 12 12 2 2 3 2 true 0)
  /\ 0 <= 2 <= 2.
Proof.
  assert (E : playRound (fun _ => 0%nat) "house"
    [mkTurn "hint" 1; mkTurn "hint" 2; mkTurn "hint" 3; mkTurn "hint" 1;
     mkTurn "house" 0]
    (mkRound 7 9 1 2 3 0 false 0)
  = Some (mkRound 12 12 2 2 3 2 true 0)) by (vm_compute; reflexivity).
  split; [exact E|].
  exact (round_hint_cap _ _ _ _ _ E eq_refl).
Defined.

(** X9.  A round that starts with three attempts ends as soon as the
    player has made three guesses, whatever they are and however many
    hints are asked for in between; and it does not end while the
    player only asks for hints. *)
Theorem round_ends_with_guesses_only (rand : nat -> nat) (word : string)
    (turns : list Turn) (r0 : Round) :
  attemptsLeft r0 = 3 ->
  wordGuessed r0 = false ->
  ((3 <= countGuesses turns)%nat -> is_Some (playRound rand word turns r0))
  /\ (countGuesses turns = 0%nat -> playRound rand word turns r0 = None).
Proof.
  intros Ha Hg. unfold playRound. split.
  - intros Hn.
    destruct (guessLoop_ends rand word turns r0) as [r E]; [lia|lia|].
    rewrite E. done.
  - intros Hn. rewrite guessLoop_only_hints; [done|done|lia|done].
Qed.

Lemma round_ends_witness :
  is_Some (playRound (fun _ => 0%nat) "house"
             [mkTurn "a" 0; mkTurn "hint" 9; mkTurn "b" 0; mkTurn "c" 0]
             (mkRound 0 0 0 0 3 0 false 0))
  /\ playRound (fun _ => 0%nat) "house"
       [mkTurn "hint" 1; mkTurn "hint" 2; mkTurn "hint" 3]
       (mkRound 0 0 0 0 3 0 false 0) = None.
Proof.
  split.
  - apply (proj1 (round_ends_with_guesses_only (fun _ => 0%nat) "house"
            [mkTurn "a" 0; mkTurn "hint" 9; mkTurn "b" 0; mkTurn "c" 0]
            (mkRound 0 0 0 0 3 0 false 0) eq_refl eq_refl)).
    vm_compute. lia.
  - apply (proj2 (round_ends_with_guesses_only (fun _ => 0%nat) "house"
            [mkTurn "hint" 1; mkTurn "hint" 2; mkTurn "hint" 3]
            (mkRound 0 0 0 0 3 0 false 0) eq_refl eq_refl)).
    reflexivity.
Defined.

(** ** Hints tell the truth *)

Lemma get_char_at : forall (word : string) (i : nat),
  (i < String.length word)%nat -> String.get i word = Some (char_at word i).
Proof.
  unfold char_at.
  induction word as [|c word IH]; intros i Hi; cbn [String.length] in Hi;
    [lia|].
  destruct i as [|i]; [done|]. cbn [String.get]. apply IH. lia.
Qed.

(** X10.  Whenever [useHint] shows a hint for a non-empty word, the
    hint is true of the word: the first letter shown is its first
    letter, the length shown is its length, and the random letter shown
    is the letter at the 1-based position shown with it, a position of
    the word.  Only the random-letter hint draws from [rand()], and it
    draws once. *)
Theorem useHint_tells_the_truth (rand : nat -> nat) (word : string)
    (hintChoice hintsUsed score : Z) (draws : nat)
    (h : Hint) (hintsUsed' score' : Z) (draws' : nat) :
  word <> ""%string ->
  useHint rand word hintChoice hintsUsed score draws
  = (Some h, hintsUsed', score', draws') ->
  hintHolds word h
  /\ draws' = (if hintChoice =? 3 then S draws else draws).
Proof.
  intros Hne E. unfold useHint in E.
  assert (Hlen : (0 < String.length word)%nat)
    by (destruct word; [done|cbn; lia]).
  destruct (hintsUsed >=? maxHintsPerWord); [done|].
  destruct (Z.eqb_spec hintChoice 1) as [->|H1].
  { inversion E; subst. split; [|done]. cbn [hintHolds].
    by apply get_char_at. }
  destruct (Z.eqb_spec hintChoice 2) as [->|H2].
  { inversion E; subst. done. }
  destruct (Z.eqb_spec hintChoice 3) as [->|H3]; [|done].
  inversion E; subst. split; [|done]. cbn [hintHolds].
  pose proof (Nat.mod_upper_bound (rand draws) (String.length word)) as Hm.
  split; [lia|].
  replace (rand draws mod String.length word + 1 - 1)%nat
    with (rand draws mod String.length word)%nat by lia.
  apply get_char_at. lia.
Qed.

Lemma useHint_truth_witness :
  "house"%string <> ""%string
  /\ useHint (fun _ => 7%nat) "house" 3 0 10 0
     = (Some (RandomLetter 3 "u"%char), 1, 9, 1%nat)
  /\ hintHolds "house" (RandomLetter 3 "u"%char).
Proof.
  assert (H : "house"%string <> ""%string) by discriminate.
  assert (E : useHint (fun _ => 7%nat) "house" 3 0 10 0
              = (Some (RandomLetter 3 "u"%char), 1, 9, 1%nat))
    by (vm_compute; reflexivity).
  split; [exact H|]. split; [exact E|].
  exact (proj1 (useHint_tells_the_truth _ _ _ _ _ _ _ _ _ _ H E)).
Defined.

(** ** Difficulties and the choice of the word *)

(** X11.  A word of at least three letters passes the filter of exactly
    one of the difficulties 1, 2 and 3; a shorter word passes none; and
    for a difficulty other than 1, 2 and 3 no word passes. *)
Theorem difficulty_bands_partition (w : string) :
  ((3 <= String.length w)%nat ->
   exists d, 1 <= d <= 3 /\ matchesDifficulty d w = true
             /\ forall d', matchesDifficulty d' w = true -> d' = d)
  /\ ((String.length w < 3)%nat -> forall d, matchesDifficulty d w = false)
  /\ (forall d, ~ 1 <= d <= 3 -> matchesDifficulty d w = false).
Proof.
  assert (U : forall d, matchesDifficulty d w = true ->
            (d = 1 /\ (3 <= String.length w <= 5)%nat)
            \/ (d = 2 /\ (6 <= String.length w <= 8)%nat)
            \/ (d = 3 /\ (9 <= String.length w)%nat)).
  { intros d. unfold matchesDifficulty.
    rewrite !orb_true_iff, !andb_true_iff, !Z.eqb_eq,
      isEasyWord_iff, isMediumWord_iff, isHardWord_iff. tauto. }
  assert (V : forall b, classify w = Some b ->
            matchesDifficulty (band_choice b) w = true)
    by (intros b; apply matchesDifficulty_classify).
  split; [|split].
  - intros H3.
    destruct (classify w) as [b|] eqn:C.
    + exists (band_choice b). split; [destruct b; cbn; lia|].
      split; [by apply V|].
      intros d' Hd'. apply U in Hd'. pose proof (V b eq_refl) as Hb.
      apply U in Hb. destruct b; cbn in *; lia.
    + unfold classify in C. repeat case_decide; try done; lia.
  - intros Hs d. by apply matchesDifficulty_short.
  - intros d Hd. destruct (matchesDifficulty d w) eqn:M; [|done].
    apply U in M. lia.
Qed.

Lemma difficulty_bands_witness :
  (3 <= String.length "planet")%nat
  /\ (String.length "at" < 3)%nat
  /\ matchesDifficulty 2 "at" = false
  /\ ~ 1 <= 7 <= 3
  /\ matchesDifficulty 7 "planet" = false
  /\ exists d, 1 <= d <= 3 /\ matchesDifficulty d "planet" = true
               /\ forall d', matchesDifficulty d' "planet" = true -> d' = d.
Proof.
  assert (H1 : (3 <= String.length "planet")%nat) by (cbn; lia).
  assert (H2 : (String.length "at" < 3)%nat) by (cbn; lia).
  assert (H3 : ~ 1 <= 7 <= 3) by lia.
  split; [exact H1|]. split; [exact H2|].
  split; [exact (proj1 (proj2 (difficulty_bands_partition "at")) H2 2)|].
  split; [exact H3|].
  split; [exact (proj2 (proj2 (difficulty_bands_partition "planet")) 7 H3)|].
  exact (proj1 (difficulty_bands_partition "planet") H1).
Defined.

Lemma filterLoop_none d words : forall n i fw fc,
  (forall k, (i <= k < i + n)%nat ->
             matchesDifficulty d (word_at words k) = false) ->
  filterLoop n i d words fw fc = (fw, fc).
Proof.
  induction n as [|n IH]; intros i fw fc H; [done|].
  cbn [filterLoop]. rewrite H by lia. apply IH. intros k Hk. apply H. lia.
Qed.

(** X12.  When none of the stored words is of the chosen difficulty,
    [playGame] starts no round: it returns at once with every variable
    as it was, whatever the player would have typed, and without
    drawing from [rand()].  This is so in particular when no word is
    stored and when the difficulty entered is not 1, 2 or 3. *)
Theorem playGame_without_candidates (rand : nat -> nat) (difficulty : Z)
    (turns : list Turn) (s : Session) :
  ((forall k, (k < s_wordCount s)%nat ->
      matchesDifficulty difficulty (word_at (s_words s) k) = false) ->
   playGame rand difficulty turns s = Some s)
  /\ (s_wordCount s = 0%nat -> playGame rand difficulty turns s = Some s)
  /\ (~ 1 <= difficulty <= 3 -> playGame rand difficulty turns s = Some s).
Proof.
  assert (G : (forall k, (k < s_wordCount s)%nat ->
      matchesDifficulty difficulty (word_at (s_words s) k) = false) ->
   playGame rand difficulty turns s = Some s).
  { intros H. unfold playGame.
    destruct (s_wordCount s =? 0)%nat; [done|].
    unfold filterWordsByDifficulty.
    rewrite filterLoop_none by (intros k Hk; apply H; lia). done. }
  split; [exact G|]. split.
  - intros H0. apply G. intros k Hk. lia.
  - intros Hd. apply G. intros k _.
    destruct (matchesDifficulty difficulty (word_at (s_words s) k)) eqn:M;
      [|done].
    unfold matchesDifficulty in M.
    rewrite !orb_true_iff, !andb_true_iff, !Z.eqb_eq in M. lia.
Qed.

Lemma playGame_without_candidates_witness :
  ~ 1 <= 4 <= 3
  /\ playGame (fun _ => 0%nat) 4 [mkTurn "house" 0] (startSession houseFiles)
     = Some (startSession houseFiles)
  /\ playGame (fun _ => 0%nat) 3 [mkTurn "house" 0] (startSession houseFiles)
     = Some (startSession houseFiles)
  /\ s_wordCount (startSession shopFiles) = 0%nat
  /\ playGame (fun _ => 0%nat) 1 [mkTurn "house" 0] (startSession shopFiles)
     = Some (startSession shopFiles).
Proof.
  assert (H1 : ~ 1 <= 4 <= 3) by lia.
  assert (H2 : forall k, (k < s_wordCount (startSession houseFiles))%nat ->
            matchesDifficulty 3 (word_at (s_words (startSession houseFiles)) k)
            = false).
  { intros k Hk. change (s_wordCount (startSession houseFiles)) with 1%nat in Hk.
    destruct k as [|k]; [reflexivity|lia]. }
  assert (H3 : s_wordCount (startSession shopFiles) = 0%nat) by reflexivity.
  split; [exact H1|].
  split; [exact (proj2 (proj2 (playGame_without_candidates (fun _ => 0%nat) 4
                   [mkTurn "house" 0] (startSession houseFiles))) H1)|].
  split; [exact (proj1 (playGame_without_candidates (fun _ => 0%nat) 3
                   [mkTurn "house" 0] (startSession houseFiles)) H2)|].
  split; [exact H3|].
  exact (proj1 (proj2 (playGame_without_candidates (fun _ => 0%nat) 1
                   [mkTurn "house" 0] (startSession shopFiles))) H3).
Defined.

(** X13.  The word [playGame] picks for a round, the entry of the
    filtered array at [rand() % filteredCount], is one of the words in
    use in the store, is of the chosen difficulty, and has at least
    three letters. *)
Theorem picked_word_is_stored_and_in_band (words : list string)
    (wordCount : nat) (difficulty : Z) (filteredWords : list string)
    (filteredCount : nat) (r : nat) :
  (wordCount <= length words)%nat ->
  (wordCount <= maxWords)%nat ->
  filterWordsByDifficulty (replicate maxWords ""%string) words wordCount
                          difficulty
  = (filteredWords, filteredCount) ->
  filteredCount <> 0%nat ->
  let word := word_at filteredWords (r mod filteredCount)%nat in
  word ∈ take wordCount words
  /\ matchesDifficulty difficulty word = true
  /\ (3 <= String.length word)%nat.
Proof.
  intros Hw Hm E Hfc word. unfold filterWordsByDifficulty in E.
  apply filterLoop_spec in E; [|lia|rewrite length_replicate; lia].
  destruct E as (E1 & E2 & E3).
  rewrite take_0, drop_0, app_nil_l in E1.
  rewrite length_replicate in E2.
  pose proof (Nat.mod_upper_bound r filteredCount Hfc) as Hlt.
  assert (Hin : word ∈ take filteredCount filteredWords).
  { apply list_elem_of_lookup. exists (r mod filteredCount)%nat.
    rewrite lookup_take_lt by done. subst word. unfold word_at.
    destruct (lookup_lt_is_Some_2 filteredWords (r mod filteredCount)%nat)
      as [x Hx]; [lia|]. by rewrite Hx. }
  rewrite E1 in Hin. apply list_elem_of_filter in Hin as [Hmatch Hin].
  split; [done|]. split; [done|].
  destruct (Nat.lt_ge_cases (String.length word) 3) as [Hs|Hs]; [|done].
  rewrite matchesDifficulty_short in Hmatch by done. done.
Qed.

Lemma picked_word_witness :
  (6 <= length sampleWords)%nat /\ (6 <= maxWords)%nat
  /\ filterWordsByDifficulty (replicate maxWords ""%string) sampleWords 6 1
     = (["cat"; "house"; "dog"]%string ++ replicate 197 ""%string, 3%nat)
  /\ word_at (["cat"; "house"; "dog"]%string ++ replicate 197 ""%string)
             (7 mod 3)%nat ∈ take 6 sampleWords.
Proof.
  assert (H1 : (6 <= length sampleWords)%nat) by (cbn; lia).
  assert (H2 : (6 <= maxWords)%nat) by (unfold maxWords; lia).
  assert (E : filterWordsByDifficulty (replicate maxWords ""%string)
                sampleWords 6 1
              = (["cat"; "house"; "dog"]%string ++ replicate 197 ""%string,
                 3%nat)) by (vm_compute; reflexivity).
  assert (H3 : 3%nat <> 0%nat) by lia.
  split; [exact H1|]. split; [exact H2|]. split; [exact E|].
  exact (proj1 (picked_word_is_stored_and_in_band _ _ _ _ _ 7 H1 H2 E H3)).
Defined.

(** ** Achievements over any sequence of evaluations *)

(** One evaluation, in closed form: each flag becomes the disjunction
    of what it was and its condition; names and descriptions stay. *)
Lemma updateAchievements_closed_form (a0 a1 a2 a3 : Achievement)
    (won : bool) (sc h tt : Z) :
  updateAchievements won sc h tt [a0; a1; a2; a3] =
  [ mkAchievement (name a0) (description a0) (achieved a0 || won);
    mkAchievement (name a1) (description a1)
                  (achieved a1 || (won && (h =? 0)));
    mkAchievement (name a2) (description a2) (achieved a2 || (50 <=? sc));
    mkAchievement (name a3) (description a3)
                  (achieved a3 || (won && (tt <=? 30))) ].
Proof.
  unfold updateAchievements, achieved_at, unlock.
  destruct a0 as [n0 d0 []], a1 as [n1 d1 []], a2 as [n2 d2 []],
    a3 as [n3 d3 []], won, (h =? 0), (50 <=? sc), (tt <=? 30); reflexivity.
Qed.

Lemma four_achievements (achs : list Achievement) :
  length achs = numAchievements ->
  exists a0 a1 a2 a3, achs = [a0; a1; a2; a3].
Proof.
  intros H. destruct achs as [|a0 [|a1 [|a2 [|a3 [|a4 achs]]]]];
    try discriminate. by exists a0, a1, a2, a3.
Qed.

Lemma evaluateAll_closed_form : forall (evs : list Evaluation)
    (a0 a1 a2 a3 : Achievement),
  evaluateAll evs [a0; a1; a2; a3] =
  [ mkAchievement (name a0) (description a0)
      (achieved a0 || existsb e_wonGame evs);
    mkAchievement (name a1) (description a1)
      (achieved a1
       || existsb (fun e => e_wonGame e && (e_hintsUsed e =? 0)) evs);
    mkAchievement (name a2) (description a2)
      (achieved a2 || existsb (fun e => 50 <=? e_score e) evs);
    mkAchievement (name a3) (description a3)
      (achieved a3
       || existsb (fun e => e_wonGame e && (e_timeTaken e <=? 30)) evs) ].
Proof.
  unfold evaluateAll.
  induction evs as [|e evs IH]; intros a0 a1 a2 a3.
  - cbn [foldl existsb]. rewrite !orb_false_r.
    by destruct a0, a1, a2, a3.
  - cbn [foldl existsb]. unfold evaluate at 2.
    rewrite updateAchievements_closed_form, IH.
    cbn [name description achieved]. by rewrite !orb_assoc.
Qed.

(** X14.  After any sequence of calls of [updateAchievements] on the
    four achievements, each one is unlocked exactly if it was unlocked
    before or one of the calls met its condition: a won round for First
    Win; a won round with no hint for Hint Master; a score of at least
    50, won or lost, for High Scorer; a won round of at most 30 seconds
    for Quick Thinker.  None is ever locked again, and the names and
    descriptions stay as they are. *)
Theorem achievements_after_evaluations (evs : list Evaluation)
    (achs : list Achievement) :
  length achs = numAchievements ->
  let achs' := evaluateAll evs achs in
  achieved_at 0 achs' = achieved_at 0 achs || existsb e_wonGame evs
  /\ achieved_at 1 achs'
     = achieved_at 1 achs
       || existsb (fun e => e_wonGame e && (e_hintsUsed e =? 0)) evs
  /\ achieved_at 2 achs'
     = achieved_at 2 achs || existsb (fun e => 50 <=? e_score e) evs
  /\ achieved_at 3 achs'
     = achieved_at 3 achs
       || existsb (fun e => e_wonGame e && (e_timeTaken e <=? 30)) evs
  /\ name <$> achs' = name <$> achs
  /\ description <$> achs' = description <$> achs.
Proof.
  intros HL achs'. subst achs'.
  destruct (four_achievements achs HL) as (a0 & a1 & a2 & a3 & ->).
  rewrite evaluateAll_closed_form. done.
Qed.

Lemma achievements_after_evaluations_witness :
  length achievements0 = numAchievements
  /\ achieved_at 2 (evaluateAll
        [mkEvaluation false 55 0 10; mkEvaluation true 20 1 40;
         mkEvaluation false 0 0 0] achievements0)
     = achieved_at 2 achievements0
       || existsb (fun e => 50 <=? e_score e)
            [mkEvaluation false 55 0 10; mkEvaluation true 20 1 40;
             mkEvaluation false 0 0 0].
Proof.
  assert (H : length achievements0 = numAchievements) by reflexivity.
  split; [exact H|].
  exact (proj1 (proj2 (proj2 (achievements_after_evaluations
              [mkEvaluation false 55 0 10; mkEvaluation true 20 1 40;
               mkEvaluation false 0 0 0] achievements0 H)))).
Defined.

Example achievements_after_evaluations_example :
  achieved <$> evaluateAll
    [mkEvaluation false 55 0 10; mkEvaluation true 20 1 40;
     mkEvaluation false 0 0 0] achievements0
  = [true; false; true; false].
Proof. reflexivity. Qed.

(** X15.  Evaluating the same outcome a second time changes nothing,
    and two outcomes can be evaluated in either order with the same
    result. *)
Theorem evaluate_idempotent_and_commutes (achs : list Achievement)
    (e1 e2 : Evaluation) :
  length achs = numAchievements ->
  evaluate (evaluate achs e1) e1 = evaluate achs e1
  /\ evaluate (evaluate achs e1) e2 = evaluate (evaluate achs e2) e1.
Proof.
  intros HL.
  destruct (four_achievements achs HL) as (a0 & a1 & a2 & a3 & ->).
  unfold evaluate. rewrite !updateAchievements_closed_form.
  cbn [name description achieved]. split.
  - by rewrite <- !orb_assoc, !orb_diag.
  - f_equal; [|f_equal; [|f_equal; [|f_equal]]]; f_equal;
      rewrite <- !orb_assoc; f_equal; apply orb_comm.
Qed.

Lemma evaluate_commutes_witness :
  length achievements0 = numAchievements
  /\ evaluate (evaluate achievements0 (mkEvaluation true 20 1 40))
              (mkEvaluation false 55 0 10)
     = evaluate (evaluate achievements0 (mkEvaluation false 55 0 10))
                (mkEvaluation true 20 1 40).
Proof.
  assert (H : length achievements0 = numAchievements) by reflexivity.
  split; [exact H|].
  exact (proj2 (evaluate_idempotent_and_commutes achievements0
                  (mkEvaluation true 20 1 40) (mkEvaluation false 55 0 10) H)).
Defined.

(** ** Achievements and the dictionary over a session *)

Lemma mainLoop_flags rand files : forall inputs s s',
  s_achievements s = achievements0
  \/ s_achievements s = playGame_placeholder achievements0 ->
  mainLoop rand files inputs s = Some s' ->
  s_achievements s' = playGame_placeholder achievements0.
Proof.
  induction inputs as [|inp inputs IH]; intros s s' H E; [done|].
  cbn [mainLoop] in E.
  destruct (mainStep rand files inp s) as [[s1 b]|] eqn:E1; [|done].
  apply mainStep_achievements in E1.
  assert (H1 : s_achievements s1 = playGame_placeholder achievements0).
  { rewrite E1. destruct H as [-> | ->]; reflexivity. }
  destruct b.
  - inversion E; by subst.
  - apply IH in E; [done|]. by right.
Qed.

(** X16.  At the end of every session the achievements are the same,
    whatever was played, won, lost or scored: First Win, Hint Master
    and Quick Thinker are unlocked and High Scorer is locked.  The only
    evaluation the program makes is the one at the top of the loop of
    [main], with the arguments won, score 10, no hint, 25 seconds. *)
Theorem session_achievements_are_fixed (rand : nat -> nat) (files : Files)
    (inputs : list MenuInput) (s : Session) :
  main rand files inputs = Some s ->
  s_achievements s = evaluate achievements0 (mkEvaluation true 10 0 25)
  /\ achieved <$> s_achievements s = [true; true; false; true].
Proof.
  unfold main. intros E.
  apply mainLoop_flags in E; [|by left]. rewrite E. done.
Qed.

Lemma session_achievements_witness :
  main (fun _ => 0%nat) houseFiles
       [mkMenuInput 1 1 [mkTurn "a" 0; mkTurn "b" 0; mkTurn "c" 0] 0; exitNow]
  = Some (mkSession 0 0 0 0 (["house"%string] ++ replicate 199 ""%string) 1
            (playGame_placeholder achievements0) 6)
  /\ achieved <$> playGame_placeholder achievements0
     = [true; true; false; true].
Proof.
  assert (E : main (fun _ => 0%nat) houseFiles
       [mkMenuInput 1 1 [mkTurn "a" 0; mkTurn "b" 0; mkTurn "c" 0] 0; exitNow]
  = Some (mkSession 0 0 0 0 (["house"%string] ++ replicate 199 ""%string) 1
            (playGame_placeholder achievements0) 6))
    by (vm_compute; reflexivity).
  split; [exact E|].
  exact (proj2 (session_achievements_are_fixed _ _ _ _ E)).
Defined.

Lemma loadWords_no_tokens file words startIndex :
  ifstream file = [] ->
  loadWords file words startIndex = mkLoaded words 0 [] [startIndex] false.
Proof.
  intros H. unfold loadWords. rewrite H. cbn [loadLoop].
  by rewrite Nat.sub_diag.
Qed.

Lemma mainLoop_no_words rand files : forall inputs s s',
  ifstream (files "dictionary2.txt"%string) = [] ->
  s_wordCount s = 0%nat ->
  mainLoop rand files inputs s = Some s' ->
  s_score s' = s_score s /\ s_highestScore s' = s_highestScore s
  /\ s_streak s' = s_streak s /\ s_maxStreak s' = s_maxStreak s
  /\ s_words s' = s_words s /\ s_wordCount s' = 0%nat
  /\ s_draws s' = s_draws s.
Proof.
  induction inputs as [|inp inputs IH]; intros s s' Hf H0 E; [done|].
  cbn [mainLoop] in E.
  assert (E1 : exists achs b,
            mainStep rand files inp s
            = Some (mkSession (s_score s) (s_highestScore s) (s_streak s)
                      (s_maxStreak s) (s_words s) (s_wordCount s) achs
                      (s_draws s), b)).
  { unfold mainStep. cbv zeta.
    destruct (m_option inp =? 1).
    { unfold playGame. cbn [s_wordCount]. rewrite H0. cbn [Nat.eqb].
      by eexists _, _. }
    destruct (m_option inp =? 2).
    { unfold displayShop. destruct (m_shopOption inp =? 1).
      - rewrite loadWords_no_tokens by done.
        cbn [ld_count ld_words s_score s_highestScore s_streak s_maxStreak
             s_words s_wordCount s_achievements s_draws].
        rewrite Nat.add_0_r. by eexists _, _.
      - by eexists _, _. }
    destruct (m_option inp =? 3); by eexists _, _. }
  destruct E1 as (achs & b & E1). rewrite E1 in E.
  destruct b.
  - inversion E; subst. cbn. done.
  - apply IH in E; [|done|done]. cbn in E. done.
Qed.

(** X17.  When neither dictionary yields a word (the files are missing
    or hold no word), no round is ever played: whatever the player
    enters, the session ends with the score, the highest score and
    both streaks at 0, with no word stored, and without a single draw
    from [rand()]. *)
Theorem session_without_words (rand : nat -> nat) (files : Files)
    (inputs : list MenuInput) (s : Session) :
  ifstream (files "dictionary.txt"%string) = [] ->
  ifstream (files "dictionary2.txt"%string) = [] ->
  main rand files inputs = Some s ->
  s_score s = 0 /\ s_highestScore s = 0 /\ s_streak s = 0
  /\ s_maxStreak s = 0 /\ s_wordCount s = 0%nat /\ s_draws s = 0%nat
  /\ s_words s = replicate maxWords ""%string.
Proof.
  unfold main. intros H1 H2 E.
  assert (S0 : startSession files
               = mkSession 0 0 0 0 (replicate maxWords ""%string) 0
                   achievements0 0).
  { unfold startSession. by rewrite loadWords_no_tokens. }
  rewrite S0 in E. apply mainLoop_no_words in E; [|done|done].
  cbn in E. tauto.
Qed.

Lemma session_without_words_witness :
  ifstream ((fun _ => None) "dictionary.txt"%string) = []
  /\ ifstream ((fun _ => None) "dictionary2.txt"%string) = []
  /\ main (fun _ => 0%nat) (fun _ => None)
       [winHouse; mkMenuInput 2 0 [] 1; winHouse; exitNow]
     = Some (mkSession 0 0 0 0 (replicate maxWords ""%string) 0
               (playGame_placeholder achievements0) 0)
  /\ s_score (mkSession 0 0 0 0 (replicate maxWords ""%string) 0
               (playGame_placeholder achievements0) 0) = 0.
Proof.
  assert (H1 : ifstream ((fun _ => None) "dictionary.txt"%string) = [])
    by reflexivity.
  assert (H2 : ifstream ((fun _ => None) "dictionary2.txt"%string) = [])
    by reflexivity.
  assert (E : main (fun _ => 0%nat) (fun _ => None)
       [winHouse; mkMenuInput 2 0 [] 1; winHouse; exitNow]
     = Some (mkSession 0 0 0 0 (replicate maxWords ""%string) 0
               (playGame_placeholder achievements0) 0))
    by (vm_compute; reflexivity).
  split; [exact H1|]. split; [exact H2|]. split; [exact E|].
  exact (proj1 (session_without_words (fun _ => 0%nat) (fun _ => None)
                  _ _ H1 H2 E)).
Defined.

(** ** The account of a won round *)

(** What holds of the variables of a round for as long as the word has
    not been guessed: every hint given has cost one point, the streak
    is the one the round started with until the first wrong guess and 0
    after it, and the records are untouched. *)
Lemma guessStep_open_round (rand : nat -> nat) (word : string) (t : Turn)
    (r0 r1 : Round) :
  Int.INT_MIN <= score r0 - 2 -> score r0 <= Int.INT_MAX ->
  0 < attemptsLeft r1 <= 3 -> 0 <= hintsUsed r1 <= 2 ->
  score r1 = score r0 - hintsUsed r1 ->
  streak r1 = (if decide (attemptsLeft r1 = 3) then streak r0 else 0) ->
  highestScore r1 = highestScore r0 -> maxStreak r1 = maxStreak r0 ->
  guess t = "hint"%string \/ guess t <> word ->
  let r2 := guessStep rand word t r1 in
  wordGuessed r2 = wordGuessed r1
  /\ 0 <= attemptsLeft r2 <= 3 /\ 0 <= hintsUsed r2 <= 2
  /\ score r2 = score r0 - hintsUsed r2
  /\ streak r2 = (if decide (attemptsLeft r2 = 3) then streak r0 else 0)
  /\ highestScore r2 = highestScore r0 /\ maxStreak r2 = maxStreak r0.
Proof.
  intros Hlo Hhi Ha Hh Hsc Hst Hhs Hms Hcase r2. subst r2.
  unfold guessStep.
  destruct (decide (guess t = "hint"%string)) as [G|G].
  - unfold useHint, maxHintsPerWord, hintCost.
    assert (E1 : Int.add (hintsUsed r1) 1 = hintsUsed r1 + 1).
    { unfold Int.add. apply wrap_in_range.
      unfold Int.in_range, Int.INT_MIN, Int.INT_MAX. lia. }
    destruct (Z.geb_spec (hintsUsed r1) 2) as [Hge|Hlt].
    { cbn [wordGuessed attemptsLeft hintsUsed score streak highestScore
           maxStreak]. repeat split; done || lia. }
    assert (E2 : Int.sub (score r1) 1 = score r1 - 1).
    { unfold Int.sub. apply wrap_in_range.
      unfold Int.in_range in *. lia. }
    destruct (hintChoice t =? 1);
      [|destruct (hintChoice t =? 2); [|destruct (hintChoice t =? 3)]];
      cbn [wordGuessed attemptsLeft hintsUsed score streak highestScore
           maxStreak];
      rewrite ?E1, ?E2; repeat split; done || lia.
  - destruct Hcase as [?|Hw]; [done|].
    rewrite decide_False by done.
    cbn [wordGuessed attemptsLeft hintsUsed score streak highestScore
         maxStreak].
    rewrite sub_one_small by lia.
    repeat split; try done; try lia.
    rewrite decide_False by lia. done.
Qed.

Lemma guessLoop_won rand word (r0 : Round) : forall turns r1 r,
  Z.of_nat (String.length word) + 2 * streak r0 <= Int.INT_MAX ->
  score r0 + (Z.of_nat (String.length word) + 2 * streak r0) <= Int.INT_MAX ->
  Int.INT_MIN <= score r0 - 2 -> 0 <= streak r0 ->
  0 <= attemptsLeft r1 <= 3 -> 0 <= hintsUsed r1 <= 2 ->
  wordGuessed r1 = false ->
  score r1 = score r0 - hintsUsed r1 ->
  streak r1 = (if decide (attemptsLeft r1 = 3) then streak r0 else 0) ->
  highestScore r1 = highestScore r0 -> maxStreak r1 = maxStreak r0 ->
  guessLoop rand word turns r1 = Some r ->
  wordGuessed r = true ->
  let S := if decide (attemptsLeft r = 3) then streak r0 else 0 in
  score r = score r0 - hintsUsed r + (Z.of_nat (String.length word) + 2 * S)
  /\ streak r = S + 1
  /\ 0 <= hintsUsed r <= 2 /\ 1 <= attemptsLeft r <= 3
  /\ maxStreak r = Z.max (maxStreak r0) (S + 1)
  /\ highestScore r = Z.max (highestScore r0) (score r).
Proof.
  intros turns.
  induction turns as [|t turns IH];
    intros r1 r HP Hhi Hlo Hs0 Ha Hh Hg Hsc Hst Hhs Hms E Hw;
    cbn [guessLoop] in E.
  { rewrite Hg in E. destruct (0 <? attemptsLeft r1); cbn in E;
      inversion E; subst; congruence. }
  rewrite Hg in E. destruct (Z.ltb_spec 0 (attemptsLeft r1)) as [Hpos|Hnp];
    cbn [andb negb] in E; [|inversion E; subst; congruence].
  destruct (decide (guess t <> "hint"%string /\ guess t = word))
    as [[G1 G2]|Hno].
  - (* the word is guessed in this pass *)
    assert (R : guessStep rand word t r1 = r).
    { assert (W : wordGuessed (guessStep rand word t r1) = true).
      { unfold guessStep. rewrite decide_False by done.
        rewrite decide_True by done. done. }
      rewrite guessLoop_done in E by done. by inversion E. }
    subst r. clear E Hw IH.
    assert (HS : 0 <= streak r1 <= streak r0) by (case_decide; lia).
    assert (HL := Zle_0_nat (String.length word)).
    unfold guessStep. rewrite decide_False by done.
    rewrite decide_True by done. unfold updateScore.
    cbn [score streak hintsUsed attemptsLeft maxStreak highestScore].
    unfold Int.add, Int.mul.
    rewrite of_size_in_range by lia.
    rewrite (wrap_in_range (streak r1 * 2))
      by (unfold Int.in_range, Int.INT_MIN in *; lia).
    rewrite (wrap_in_range (Z.of_nat (String.length word) + streak r1 * 2))
      by (unfold Int.in_range, Int.INT_MIN in *; lia).
    rewrite (wrap_in_range (streak r1 + 1))
      by (unfold Int.in_range, Int.INT_MIN, Int.INT_MAX in *; lia).
    rewrite (wrap_in_range (score r1 + _))
      by (unfold Int.in_range in *; lia).
    rewrite <- Hst, Hms, Hhs.
    repeat split; try lia.
    + destruct (Z.ltb_spec (maxStreak r0) (streak r1 + 1)); lia.
    + destruct (Z.ltb_spec (highestScore r0)
        (score r1 + (Z.of_nat (String.length word) + streak r1 * 2))); lia.
  - (* a hint or a wrong guess *)
    assert (Hcase : guess t = "hint"%string \/ guess t <> word).
    { destruct (decide (guess t = "hint"%string)); [by left|].
      right. intros X. apply Hno. done. }
    assert (Hup : score r0 <= Int.INT_MAX)
      by (pose proof (Zle_0_nat (String.length word)); lia).
    destruct (guessStep_open_round rand word t r0 r1 Hlo Hup
                ltac:(lia) Hh Hsc Hst Hhs Hms Hcase)
      as (W & A & H & Sc & St & Hs & Ms).
    apply (IH (guessStep rand word t r1)); try done. congruence.
Qed.

(** X18.  The account of a won round, for numbers that fit in [int]:
    the score at the end is the score at the start, minus one point for
    each hint given, plus the length of the word plus twice the streak
    that counted; the streak that counted is the streak at the start of
    the round if no wrong guess came before the right one, and 0
    otherwise; the streak at the end is one more; the two records are
    raised to the new streak and the new score if these are larger. *)
Theorem won_round_account (rand : nat -> nat) (word : string)
    (turns : list Turn) (r0 r : Round) :
  attemptsLeft r0 = 3 -> hintsUsed r0 = 0 -> wordGuessed r0 = false ->
  0 <= streak r0 ->
  Z.of_nat (String.length word) + 2 * streak r0 <= Int.INT_MAX ->
  score r0 + (Z.of_nat (String.length word) + 2 * streak r0) <= Int.INT_MAX ->
  Int.INT_MIN <= score r0 - 2 ->
  playRound rand word turns r0 = Some r ->
  wordGuessed r = true ->
  let S := if decide (attemptsLeft r = 3) then streak r0 else 0 in
  score r = score r0 - hintsUsed r + (Z.of_nat (String.length word) + 2 * S)
  /\ streak r = S + 1
  /\ 0 <= hintsUsed r <= 2 /\ 1 <= attemptsLeft r <= 3
  /\ maxStreak r = Z.max (maxStreak r0) (S + 1)
  /\ highestScore r = Z.max (highestScore r0) (score r).
Proof.
  intros Ha Hh Hg Hs0 HP Hhi Hlo E Hw.
  unfold playRound in E.
  destruct (guessLoop rand word turns r0) as [r1|] eqn:E1; [|done].
  inversion E; subst. clear E. unfold roundEnd in *.
  destruct (wordGuessed r1) eqn:W1; cbn [negb] in *; [|done].
  apply (guessLoop_won rand word r0 turns r0 r1); try done; try lia.
  rewrite decide_True by done. done.
Qed.

Lemma won_round_witness :
  playRound (fun _ => 0%nat) "house"
    [mkTurn "hint" 1; mkTurn "horse" 0; mkTurn "hint" 2; mkTurn "house" 0]
    (mkRound 20 31 4 6 3 0 false 0)
  = Some (mkRound 23 31 1 6 2 2 true 0)
  /\ score (mkRound 23 31 1 6 2 2 true 0) = 20 - 2 + (Z.of_nat 5 + 2 * 0).
Proof.
  assert (E : playRound (fun _ => 0%nat) "house"
    [mkTurn "hint" 1; mkTurn "horse" 0; mkTurn "hint" 2; mkTurn "house" 0]
    (mkRound 20 31 4 6 3 0 false 0)
  = Some (mkRound 23 31 1 6 2 2 true 0)) by (vm_compute; reflexivity).
  split; [exact E|].
  assert (H1 : 0 <= 4) by lia.
  assert (H2 : Z.of_nat (String.length "house") + 2 * 4 <= Int.INT_MAX)
    by (unfold Int.INT_MAX; cbn; lia).
  assert (H3 : 20 + (Z.of_nat (String.length "house") + 2 * 4)
               <= Int.INT_MAX) by (unfold Int.INT_MAX; cbn; lia).
  assert (H4 : Int.INT_MIN <= 20 - 2) by (unfold Int.INT_MIN; lia).
  exact (proj1 (won_round_account (fun _ => 0%nat) "house" _
                  (mkRound 20 31 4 6 3 0 false 0) _
                  eq_refl eq_refl eq_refl H1 H2 H3 H4 E eq_refl)).
Defined.
